(** * Brian's Songs: the reactive state core of [App.tsx]

    A shallow embedding of the derived "visible songs" view, the
    playback queue and the bulk import of the single-page application,
    for both variants of the source: the queue-based player of
    [src/App.tsx] (module [App]) and the earlier index-based player
    (module [LiveIndex]). *)

From Stdlib Require Import Ascii.
From stdpp Require Import gmap strings list sorting.

Local Open Scope Z_scope.

(** ** JavaScript strings

    Strings are sequences of code units.  [toLowerCase] and [trim] are
    the ASCII fragments of [String.prototype.toLowerCase] and
    [String.prototype.trim]: letters [A-Z] are folded, the white space
    characters TAB, LF, VT, FF, CR and SPACE are stripped, and every
    other code unit is left as it is.  They are the functions of the
    engine on the strings of [Plain.asciiOnly] below; the statements
    that depend on what is folded or stripped are made for such
    strings. *)
Module JsString.

Definition lower_ascii (c : ascii) : ascii :=
  let n := nat_of_ascii c in
  if ((65 <=? n) && (n <=? 90))%nat then ascii_of_nat (n + 32) else c.

Fixpoint toLowerCase (s : string) : string :=
  match s with
  | EmptyString => EmptyString
  | String c s' => String (lower_ascii c) (toLowerCase s')
  end.

Definition is_white (c : ascii) : bool := Ascii.is_space c.

Fixpoint trimStart (s : string) : string :=
  match s with
  | EmptyString => EmptyString
  | String c s' => if is_white c then trimStart s' else s
  end.

Fixpoint trimEnd (s : string) : string :=
  match s with
  | EmptyString => EmptyString
  | String c s' =>
      match trimEnd s' with
      | EmptyString => if is_white c then EmptyString else String c EmptyString
      | r => String c r
      end
  end.

Definition trim (s : string) : string := trimEnd (trimStart s).

(** [s.startsWith(p)] *)
Fixpoint startsWith (s p : string) {struct p} : bool :=
  match p, s with
  | EmptyString, _ => true
  | String _ _, EmptyString => false
  | String b p', String a s' => if decide (a = b) then startsWith s' p' else false
  end.

(** [s.includes(q)]: [q] occurs in [s] as a contiguous substring. *)
Fixpoint includes (s q : string) : bool :=
  startsWith s q ||
  match s with
  | EmptyString => false
  | String _ s' => includes s' q
  end.

(** [xs.join(sep)] *)
Fixpoint join (sep : string) (xs : list string) : string :=
  match xs with
  | [] => ""
  | [x] => x
  | x :: rest => x +:+ sep +:+ join sep rest
  end.

(** Truthiness of a string: only the empty string is falsy. *)
Definition truthy (s : string) : bool :=
  match s with EmptyString => false | String _ _ => true end.

(** A string made of white space only. *)
Fixpoint all_white (s : string) : bool :=
  match s with
  | EmptyString => true
  | String c s' => is_white c && all_white s'
  end.

End JsString.

(** ** The host environment

    [new Date(s).getTime()] and [a.localeCompare(b)] are supplied by the
    JavaScript engine and its locale.  A date that does not parse has
    time value NaN, rendered here as [None]. *)
Class Host := {
  getTime : string → option Z;
  localeCompare : string → string → Z;
}.

(** The comparison of the locale is a consistent comparator: a total
    preorder on strings, as [Array.prototype.sort] requires of its
    argument. *)
Class HostLaws (H : Host) : Prop := {
  localeCompare_total a b : localeCompare a b ≤ 0 ∨ localeCompare b a ≤ 0;
  localeCompare_trans a b c :
    localeCompare a b ≤ 0 → localeCompare b c ≤ 0 → localeCompare a c ≤ 0;
}.

(** ** Array.prototype.sort

    The comparator returns a number, NaN being [None]; the sort reads
    NaN as [+0].  The sort is stable (ECMAScript 2019), so for a
    consistent comparator its result is the one arrangement computed
    here by inserting each element in front of the first element that
    must follow it. *)
Module JsArray.
Section sort.
Context {A : Type}.
Variable comparefn : A → A → option Z.

Definition sortCompare (x y : A) : Z := default 0 (comparefn x y).

Fixpoint insert (x : A) (l : list A) : list A :=
  match l with
  | [] => [x]
  | y :: l' => if decide (sortCompare x y ≤ 0) then x :: l else y :: insert x l'
  end.

Definition sort (l : list A) : list A := foldr insert [] l.
End sort.

(** [xs.indexOf(x)], [-1] when absent. *)
Fixpoint indexOf (xs : list Z) (x : Z) : Z :=
  match xs with
  | [] => -1
  | y :: rest =>
      if decide (y = x) then 0
      else let i := indexOf rest x in if decide (i = -1) then -1 else i + 1
  end.

(** [xs[i]] for a number [i]: [undefined] outside the array. *)
Definition at_index {A} (xs : list A) (i : Z) : option A :=
  if decide (0 ≤ i) then xs !! Z.to_nat i else None.

End JsArray.

(** ** Songs *)
Record Song := {
  id : Z;
  title : string;
  slug : string;
  duration : string;
  releaseDate : string;
  genre : string;
  moods : list string;
  story : string;
  lyrics : string;
  audioUrl : string;
  likes : Z;
  visibility : string;
}.

Definition BE_GOOD : Song :=
  {| id := 1; title := "Be Good"; slug := "be-good"; duration := "3:42";
     releaseDate := "2025-07-15"; genre := "Southern Rock";
     moods := ["uplifting"; "nostalgic"];
     story := "A feel-good track about small lessons and second chances—" +:+
              "\nBlending southern rock guitars with a sing-along chorus." +:+
              "\nWritten on a summer afternoon after remembering a childhood lesson.";
     lyrics := "Mama said be a good boy... (lyrics preview)\n" +:+
               "Chorus: Be good, be kind, do right...";
     audioUrl := ""; likes := 24; visibility := "public" |}.

Definition DIMINISHED : Song :=
  {| id := 2; title := "Diminished, Erased, and Ignored";
     slug := "diminished-erased-ignored"; duration := "4:18";
     releaseDate := "2025-08-10"; genre := "Blues Rock";
     moods := ["reflective"; "defiant"];
     story := "Gritty blues-rock storytelling with a raw vocal—" +:+
              "\nA song about resilience and finding your footing again." +:+
              "\nDrawn from late-night writing sessions and raw emotion.";
     lyrics := "But what of the man with years behind... (lyrics preview)\n" +:+
               "Chorus: Diminished, erased, ignored...";
     audioUrl := ""; likes := 31; visibility := "public" |}.

Definition SUNSET_HEARTBREAK : Song :=
  {| id := 3; title := "Sunset Heartbreak"; slug := "sunset-heartbreak";
     duration := "3:58"; releaseDate := "2025-06-14"; genre := "Country Ballad";
     moods := ["somber"; "tender"];
     story := "A quiet ballad set at dusk—" +:+
              "\nTwo people watching the sun slip under the horizon on their last day together." +:+
              "\nCaptures the bittersweet calm of endings and memory.";
     lyrics := "We watched the sun lay down its crown... (lyrics preview)\n" +:+
               "Chorus: Sunset fading, holding on...";
     audioUrl := ""; likes := 17; visibility := "private" |}.

Definition SEED_SONGS : list Song := [BE_GOOD; DIMINISHED; SUNSET_HEARTBREAK].

(** [{ ...s, audioUrl: url }] *)
Definition withAudioUrl (url : string) (x : Song) : Song :=
  {| id := id x; title := title x; slug := slug x; duration := duration x;
     releaseDate := releaseDate x; genre := genre x; moods := moods x;
     story := story x; lyrics := lyrics x; audioUrl := url; likes := likes x;
     visibility := visibility x |}.

(** ** The visible songs (View Filter/Sort Engine) *)
Section visible.
Context {host : Host}.

(** [new Date(b.releaseDate).getTime() - new Date(a.releaseDate).getTime()],
    NaN as soon as one of the dates does not parse. *)
Definition byDateDesc (a b : Song) : option Z :=
  tb ← getTime (releaseDate b); ta ← getTime (releaseDate a); Some (tb - ta).

(** [liked[s.id] ? 1 : 0] *)
Definition likeBonus (liked : gmap Z bool) (s : Song) : Z :=
  if default false (liked !! id s) then 1 else 0.

(** [s.likes + (liked[s.id] ? 1 : 0)], the sum of two integers: that
    of the code for a like count that JavaScript adds one to without
    rounding, [Plain.safeLikes] below. *)
Definition likeWeight (liked : gmap Z bool) (s : Song) : Z :=
  likes s + likeBonus liked s.

(** [b.likes + (liked[b.id] ? 1 : 0) - (a.likes + (liked[a.id] ? 1 : 0))] *)
Definition byLikesDesc (liked : gmap Z bool) (a b : Song) : option Z :=
  Some (likeWeight liked b - likeWeight liked a).

(** [a.title.localeCompare(b.title)] *)
Definition byTitleAsc (a b : Song) : option Z :=
  Some (localeCompare (title a) (title b)).

(** The visibility gate:
    [if (path !== "/private") base = base.filter((s) => s.visibility === "public");
     else if (!privateUnlocked) base = [];] *)
Definition gate (songs : list Song) (path : string) (privateUnlocked : bool)
    : list Song :=
  if decide (path ≠ "/private") then
    filter (λ s, visibility s = "public") songs
  else if negb privateUnlocked then []
  else songs.

(** The predicate of the text filter, for [q = query.trim().toLowerCase()]:
    [s.title.toLowerCase().includes(q) || s.genre.toLowerCase().includes(q)
     || s.moods.join(" ").toLowerCase().includes(q)]. *)
Definition matches (q : string) (s : Song) : bool :=
  JsString.includes (JsString.toLowerCase (title s)) q
  || JsString.includes (JsString.toLowerCase (genre s)) q
  || JsString.includes (JsString.toLowerCase (JsString.join " " (moods s))) q.

(** [base = q ? base.filter(...) : base] *)
Definition textFilter (query : string) (base : list Song) : list Song :=
  let q := JsString.toLowerCase (JsString.trim query) in
  if JsString.truthy q then filter (λ s, matches q s = true) base else base.

(** [if (sortMode === "liked") base.sort(byLikesDesc);
     else if (sortMode === "az") base.sort(byTitleAsc);
     else base.sort(byDateDesc);] *)
Definition comparator (sortMode : string) (liked : gmap Z bool)
    : Song → Song → option Z :=
  if decide (sortMode = "liked") then byLikesDesc liked
  else if decide (sortMode = "az") then byTitleAsc
  else byDateDesc.

Definition visibleSongs (songs : list Song) (query path : string)
    (privateUnlocked : bool) (sortMode : string) (liked : gmap Z bool)
    : list Song :=
  JsArray.sort (comparator sortMode liked)
    (textFilter query (gate songs path privateUnlocked)).
End visible.

(** ** A concrete host

    ISO calendar dates ([YYYY-MM-DD]) parsed to milliseconds since the
    epoch, and comparison of strings by code units. *)
Module IsoHost.

Fixpoint digits (acc : Z) (s : string) : option Z :=
  match s with
  | EmptyString => Some acc
  | String c s' => d ← Ascii.is_nat c; digits (10 * acc + Z.of_nat d) s'
  end.

Definition daysFromCivil (y m d : Z) : Z :=
  let y' := if decide (m ≤ 2) then y - 1 else y in
  let era := y' `div` 400 in
  let yoe := y' - era * 400 in
  let doy := (153 * (m + (if decide (2 < m) then -3 else 9)) + 2) `div` 5 + d - 1 in
  let doe := yoe * 365 + yoe `div` 4 - yoe `div` 100 + doy in
  era * 146097 + doe - 719468.

Definition isoTime (s : string) : option Z :=
  if decide (String.length s = 10%nat ∧ String.get 4 s = Some "-"%char
             ∧ String.get 7 s = Some "-"%char) then
    y ← digits 0 (String.substring 0 4 s);
    m ← digits 0 (String.substring 5 2 s);
    d ← digits 0 (String.substring 8 2 s);
    if decide (1 ≤ m ≤ 12 ∧ 1 ≤ d ≤ 31) then Some (daysFromCivil y m d * 86400000)
    else None
  else None.

Definition codeUnitCompare (a b : string) : Z :=
  match String.compare a b with Lt => -1 | Eq => 0 | Gt => 1 end.

#[export] Instance host : Host :=
  {| getTime := isoTime; localeCompare := codeUnitCompare |}.

End IsoHost.

(** ** Application state *)

(** A comment or a guestbook entry. *)
Record Entry := { name : string; message : string; createdAt : string }.

(** The slices kept in [localStorage] by [useLocalStorage]. *)
Record Persisted := {
  songs : list Song;
  liked : gmap Z bool;
  guestbook : list Entry;
  comments : gmap string (list Entry);
  privateUnlocked : bool;
  sortMode : string;
}.

Definition defaults : Persisted :=
  {| songs := SEED_SONGS; liked := ∅; guestbook := []; comments := ∅;
     privateUnlocked := false; sortMode := "newest" |}.

(** The fields of a bulk import that passed their type check. *)
Record Patch := {
  p_songs : option (list Song);
  p_liked : option (gmap Z bool);
  p_comments : option (gmap string (list Entry));
  p_guestbook : option (list Entry);
  p_privateUnlocked : option bool;
  p_sortMode : option string;
}.

Definition applyPatch (p : Patch) (d : Persisted) : Persisted :=
  {| songs := default (songs d) (p_songs p);
     liked := default (liked d) (p_liked p);
     guestbook := default (guestbook d) (p_guestbook p);
     comments := default (comments d) (p_comments p);
     privateUnlocked := default (privateUnlocked d) (p_privateUnlocked p);
     sortMode := default (sortMode d) (p_sortMode p) |}.

Definition NO_AUDIO : string :=
  "No audio attached for this song yet. Open the song and add an MP3/WAV URL or upload a file.".

(** ** The queue-based player of [src/App.tsx] *)
Module App.

Record State := {
  path : string;
  query : string;
  store : Persisted;
  (* player state *)
  queue : list Z;
  queueIndex : option Z;
  isPlaying : bool;
  (* MiniPlayer: the refs and the audio element's source *)
  prevIdRef : option Z;
  prevUrlRef : option string;
  audioSrc : string;
  (* the notices raised with [alert], newest first *)
  alerts : list string;
}.

Definition setPath (v : string) (s : State) : State :=
  {| path := v; query := query s; store := store s; queue := queue s;
     queueIndex := queueIndex s; isPlaying := isPlaying s;
     prevIdRef := prevIdRef s; prevUrlRef := prevUrlRef s;
     audioSrc := audioSrc s; alerts := alerts s |}.

Definition setQuery (v : string) (s : State) : State :=
  {| path := path s; query := v; store := store s; queue := queue s;
     queueIndex := queueIndex s; isPlaying := isPlaying s;
     prevIdRef := prevIdRef s; prevUrlRef := prevUrlRef s;
     audioSrc := audioSrc s; alerts := alerts s |}.

Definition setStore (v : Persisted) (s : State) : State :=
  {| path := path s; query := query s; store := v; queue := queue s;
     queueIndex := queueIndex s; isPlaying := isPlaying s;
     prevIdRef := prevIdRef s; prevUrlRef := prevUrlRef s;
     audioSrc := audioSrc s; alerts := alerts s |}.

Definition setQueue (v : list Z) (s : State) : State :=
  {| path := path s; query := query s; store := store s; queue := v;
     queueIndex := queueIndex s; isPlaying := isPlaying s;
     prevIdRef := prevIdRef s; prevUrlRef := prevUrlRef s;
     audioSrc := audioSrc s; alerts := alerts s |}.

Definition setQueueIndex (v : option Z) (s : State) : State :=
  {| path := path s; query := query s; store := store s; queue := queue s;
     queueIndex := v; isPlaying := isPlaying s;
     prevIdRef := prevIdRef s; prevUrlRef := prevUrlRef s;
     audioSrc := audioSrc s; alerts := alerts s |}.

Definition setIsPlaying (v : bool) (s : State) : State :=
  {| path := path s; query := query s; store := store s; queue := queue s;
     queueIndex := queueIndex s; isPlaying := v;
     prevIdRef := prevIdRef s; prevUrlRef := prevUrlRef s;
     audioSrc := audioSrc s; alerts := alerts s |}.

(** [prevIdRef.current = id; prevUrlRef.current = url; audio.src = url] *)
Definition loadTrack (i : option Z) (url : string) (s : State) : State :=
  {| path := path s; query := query s; store := store s; queue := queue s;
     queueIndex := queueIndex s; isPlaying := isPlaying s;
     prevIdRef := i; prevUrlRef := Some url;
     audioSrc := url; alerts := alerts s |}.

Definition alert (msg : string) (s : State) : State :=
  {| path := path s; query := query s; store := store s; queue := queue s;
     queueIndex := queueIndex s; isPlaying := isPlaying s;
     prevIdRef := prevIdRef s; prevUrlRef := prevUrlRef s;
     audioSrc := audioSrc s; alerts := msg :: alerts s |}.

(** Setters of the persisted slices. *)
Definition setSongs (v : list Song) (s : State) : State :=
  let d := store s in
  setStore {| songs := v; liked := liked d; guestbook := guestbook d;
              comments := comments d; privateUnlocked := privateUnlocked d;
              sortMode := sortMode d |} s.

Definition setLiked (v : gmap Z bool) (s : State) : State :=
  let d := store s in
  setStore {| songs := songs d; liked := v; guestbook := guestbook d;
              comments := comments d; privateUnlocked := privateUnlocked d;
              sortMode := sortMode d |} s.

Definition setGuestbook (v : list Entry) (s : State) : State :=
  let d := store s in
  setStore {| songs := songs d; liked := liked d; guestbook := v;
              comments := comments d; privateUnlocked := privateUnlocked d;
              sortMode := sortMode d |} s.

Definition setComments (v : gmap string (list Entry)) (s : State) : State :=
  let d := store s in
  setStore {| songs := songs d; liked := liked d; guestbook := guestbook d;
              comments := v; privateUnlocked := privateUnlocked d;
              sortMode := sortMode d |} s.

Definition setPrivateUnlocked (v : bool) (s : State) : State :=
  let d := store s in
  setStore {| songs := songs d; liked := liked d; guestbook := guestbook d;
              comments := comments d; privateUnlocked := v;
              sortMode := sortMode d |} s.

Definition setSortMode (v : string) (s : State) : State :=
  let d := store s in
  setStore {| songs := songs d; liked := liked d; guestbook := guestbook d;
              comments := comments d; privateUnlocked := privateUnlocked d;
              sortMode := v |} s.

Section handlers.
Context {host : Host}.

(** The memoised visible list of the current render. *)
Definition visible (s : State) : list Song :=
  let d := store s in
  visibleSongs (songs d) (query s) (path s) (privateUnlocked d) (sortMode d)
    (liked d).

(** [songs.find((s) => s.id === i) || null] *)
Definition findById (l : list Song) (i : Z) : option Song :=
  snd <$> list_find (λ x, id x = i) l.

Definition findBySlug (l : list Song) (g : string) : option Song :=
  snd <$> list_find (λ x, slug x = g) l.

Definition isSongPath (p : string) : bool := JsString.startsWith p "/song/".

(** [path.replace("/song/", "")] on a path that starts with the prefix. *)
Definition routeSong (s : State) : option Song :=
  if isSongPath (path s) then
    findBySlug (songs (store s))
      (String.substring 6 (String.length (path s) - 6) (path s))
  else None.

(** Current song derived from the queue. *)
Definition currentSong (s : State) : option Song :=
  i ← queueIndex s;
  match JsArray.at_index (queue s) i with
  | Some x => findById (songs (store s)) x
  | None => None
  end.

(** [navigate(to)] writes the hash of the location and the path. *)
Definition navigate (to : string) (s : State) : State := setPath to s.

(** [setPath(window.location.hash.replace(/^#/, "") || "/")] *)
Definition readHash (hash : string) (s : State) : State :=
  let h := match hash with
           | String "#" rest => rest
           | _ => hash
           end in
  setPath (if JsString.truthy h then h else "/") s.

(** Start playback for a given song, snapshotting the current visible
    list as the queue. *)
Definition playBySong (song : Song) (s : State) : State :=
  let newQueue := map id (visible s) in
  let startIndex := JsArray.indexOf newQueue (id song) in
  if decide (startIndex = -1) then s
  else
    let s1 := setIsPlaying true (setQueueIndex (Some startIndex) (setQueue newQueue s)) in
    if negb (isSongPath (path s)) then navigate ("/song/" +:+ slug song) s1 else s1.

(** Start playback of the entire visible list. *)
Definition playAllVisible (s : State) : State :=
  match visible s with
  | [] => s
  | _ :: _ =>
      let ids := map id (visible s) in
      let s1 := setIsPlaying true (setQueueIndex (Some 0) (setQueue ids s)) in
      match head ids ≫= findById (songs (store s)) with
      | Some first =>
          if negb (isSongPath (path s)) then navigate ("/song/" +:+ slug first) s1
          else s1
      | None => s1
      end
  end.

(** [setSongs((prev) => prev.map((s) => (s.id === id ? { ...s, ...patch } : s)))]
    with the patch [{ audioUrl: url }] of the song detail page. *)
Definition updateSong (i : Z) (url : string) (s : State) : State :=
  setSongs
    (map (λ x, if decide (id x = i) then withAudioUrl url x else x)
       (songs (store s))) s.

(** Queue stepping:
    [if (!queue.length || queueIndex == null) return;
     setQueueIndex((queueIndex + dir + queue.length) % queue.length)];
    [%] is the remainder of JavaScript, truncated towards zero. *)
Definition stepQueue (dir : Z) (s : State) : State :=
  match queue s, queueIndex s with
  | [], _ | _, None => s
  | _ :: _, Some i =>
      let len := Z.of_nat (length (queue s)) in
      setQueueIndex (Some ((i + dir + len) `rem` len)) s
  end.

Definition stopPlayback (s : State) : State := setIsPlaying false s.

(** [!currentSong?.audioUrl] *)
Definition hasAudio (s : State) : bool :=
  match currentSong s with
  | Some x => JsString.truthy (audioUrl x)
  | None => false
  end.

(** The play/pause button of the MiniPlayer; [paused] is what the audio
    element reports. *)
Definition togglePlay (paused : bool) (s : State) : State :=
  if negb (hasAudio s) then alert NO_AUDIO s
  else if paused then setIsPlaying true s
  else setIsPlaying false s.

(** The effect of the MiniPlayer: (re)load only when the track changed.
    With a source, [audio.play()] is called and its promise settles
    later (event [PlaySettled]). *)
Definition trackEffect (s : State) : State :=
  let i := id <$> currentSong s in
  let url := default "" (audioUrl <$> currentSong s) in
  if decide (i ≠ prevIdRef s ∨ Some url ≠ prevUrlRef s) then
    let s1 := loadTrack i url s in
    if JsString.truthy url then s1 else setIsPlaying false s1
  else s.

(** [setLiked((prev) => ({ ...prev, [id]: !prev[id] }))] *)
Definition toggleLike (i : Z) (s : State) : State :=
  let m := liked (store s) in
  setLiked (<[i := negb (default false (m !! i))]> m) s.

(** Posting a comment on the song detail page. *)
Definition postComment (e : Entry) (s : State) : State :=
  match routeSong s with
  | Some song =>
      let m := comments (store s) in
      setComments (<[slug song := e :: default [] (m !! slug song)]> m) s
  | None => s
  end.

Inductive Event :=
  | SetQuery (q : string)
  | Navigate (to : string)
  | HashChange (hash : string)
  | SetSortMode (m : string)
  | ToggleLike (i : Z)
  | Unlock (pw : string)
  | UpdateSong (i : Z) (url : string)
  | PostComment (e : Entry)
  | SignGuestbook (e : Entry)
  | ImportPatch (p : Patch)
  | ClearAll
  | PlaySong (song : Song)
  | PlayAll
  | StepPrev
  | StepNext
  | Ended
  | TogglePlay (paused : bool)
  | Stop
  | PlaySettled (ok : bool).

(** The event handlers, before the effects of the next render. *)
Definition handle (e : Event) (s : State) : State :=
  match e with
  | SetQuery q => setQuery q s
  | Navigate to => navigate to s
  | HashChange h => readHash h s
  | SetSortMode m => setSortMode m s
  | ToggleLike i => toggleLike i s
  | Unlock pw =>
      setPrivateUnlocked
        (bool_decide (0 < String.length (JsString.trim pw))%nat) s
  | UpdateSong i url => updateSong i url s
  | PostComment e => postComment e s
  | SignGuestbook e => setGuestbook (e :: guestbook (store s)) s
  | ImportPatch p => setStore (applyPatch p (store s)) s
  | ClearAll => setStore defaults s
  | PlaySong song => playBySong song s
  | PlayAll => playAllVisible s
  | StepPrev => stepQueue (-1) s
  | StepNext => stepQueue 1 s
  | Ended => stepQueue 1 s
  | TogglePlay paused => togglePlay paused s
  | Stop => stopPlayback s
  | PlaySettled ok => setIsPlaying ok s
  end.

(** One event: the handler, then the MiniPlayer effect of the render
    that follows. *)
Definition dispatch (e : Event) (s : State) : State := trackEffect (handle e s).

Definition run (es : list Event) (s : State) : State :=
  foldl (λ acc e, dispatch e acc) s es.

(** The state after mounting, for the stored slices and the hash of the
    location. *)
Definition mount (d : Persisted) (hash : string) : State :=
  trackEffect
    (readHash hash
       {| path := "/"; query := ""; store := d; queue := []; queueIndex := None;
          isPlaying := false; prevIdRef := None; prevUrlRef := None;
          audioSrc := ""; alerts := [] |}).

Inductive reachable : State → Prop :=
  | reachable_mount d hash : reachable (mount d hash)
  | reachable_dispatch e s : reachable s → reachable (dispatch e s).

(** The cursor is absent or a valid index of the queue. *)
Definition cursorInBounds (s : State) : Prop :=
  match queueIndex s with
  | None => True
  | Some i => 0 ≤ i < Z.of_nat (length (queue s))
  end.

(** The refs of the MiniPlayer hold the track of the current render. *)
Definition synced (s : State) : Prop :=
  prevIdRef s = id <$> currentSong s
  ∧ prevUrlRef s = Some (default "" (audioUrl <$> currentSong s)).

(** The events that start playback or step the queue. *)
Definition startsOrSteps (e : Event) : bool :=
  match e with
  | PlaySong _ | PlayAll | StepPrev | StepNext | Ended => true
  | _ => false
  end.

End handlers.
End App.

(** ** The index-based player of the earlier variant

    The player keeps [activeIndex], an index into the visible list of
    the current render, which the MiniPlayer receives as [songs]. *)
Module LiveIndex.

Record State := {
  path : string;
  query : string;
  store : Persisted;
  activeIndex : option Z;
  isPlaying : bool;
  audioSrc : string;
  alerts : list string;
}.

Definition setPath (v : string) (s : State) : State :=
  {| path := v; query := query s; store := store s;
     activeIndex := activeIndex s; isPlaying := isPlaying s;
     audioSrc := audioSrc s; alerts := alerts s |}.

Definition setQuery (v : string) (s : State) : State :=
  {| path := path s; query := v; store := store s;
     activeIndex := activeIndex s; isPlaying := isPlaying s;
     audioSrc := audioSrc s; alerts := alerts s |}.

Definition setStore (v : Persisted) (s : State) : State :=
  {| path := path s; query := query s; store := v;
     activeIndex := activeIndex s; isPlaying := isPlaying s;
     audioSrc := audioSrc s; alerts := alerts s |}.

Definition setActiveIndex (v : option Z) (s : State) : State :=
  {| path := path s; query := query s; store := store s;
     activeIndex := v; isPlaying := isPlaying s;
     audioSrc := audioSrc s; alerts := alerts s |}.

Definition setIsPlaying (v : bool) (s : State) : State :=
  {| path := path s; query := query s; store := store s;
     activeIndex := activeIndex s; isPlaying := v;
     audioSrc := audioSrc s; alerts := alerts s |}.

Definition setAudioSrc (v : string) (s : State) : State :=
  {| path := path s; query := query s; store := store s;
     activeIndex := activeIndex s; isPlaying := isPlaying s;
     audioSrc := v; alerts := alerts s |}.

Definition alert (msg : string) (s : State) : State :=
  {| path := path s; query := query s; store := store s;
     activeIndex := activeIndex s; isPlaying := isPlaying s;
     audioSrc := audioSrc s; alerts := msg :: alerts s |}.

Definition setSongs (v : list Song) (s : State) : State :=
  let d := store s in
  setStore {| songs := v; liked := liked d; guestbook := guestbook d;
              comments := comments d; privateUnlocked := privateUnlocked d;
              sortMode := sortMode d |} s.

Definition setLiked (v : gmap Z bool) (s : State) : State :=
  let d := store s in
  setStore {| songs := songs d; liked := v; guestbook := guestbook d;
              comments := comments d; privateUnlocked := privateUnlocked d;
              sortMode := sortMode d |} s.

Definition setPrivateUnlocked (v : bool) (s : State) : State :=
  let d := store s in
  setStore {| songs := songs d; liked := liked d; guestbook := guestbook d;
              comments := comments d; privateUnlocked := v;
              sortMode := sortMode d |} s.

Definition setSortMode (v : string) (s : State) : State :=
  let d := store s in
  setStore {| songs := songs d; liked := liked d; guestbook := guestbook d;
              comments := comments d; privateUnlocked := privateUnlocked d;
              sortMode := v |} s.

Section handlers.
Context {host : Host}.

Definition visible (s : State) : list Song :=
  let d := store s in
  visibleSongs (songs d) (query s) (path s) (privateUnlocked d) (sortMode d)
    (liked d).

Definition updateSong (i : Z) (url : string) (s : State) : State :=
  setSongs
    (map (λ x, if decide (id x = i) then withAudioUrl url x else x)
       (songs (store s))) s.

(** [visibleSongs.findIndex((s) => s.id === song.id)] *)
Definition findIndex (l : list Song) (i : Z) : Z :=
  match list_find (λ x, id x = i) l with
  | Some (n, _) => Z.of_nat n
  | None => -1
  end.

Definition navigate (to : string) (s : State) : State := setPath to s.

Definition readHash (hash : string) (s : State) : State :=
  let h := match hash with
           | String "#" rest => rest
           | _ => hash
           end in
  setPath (if JsString.truthy h then h else "/") s.

(** [const idx = visibleSongs.findIndex((s) => s.id === song.id);
     if (idx !== -1) { setActiveIndex(idx); setIsPlaying(true); ... }] *)
Definition playBySong (song : Song) (s : State) : State :=
  let idx := findIndex (visible s) (id song) in
  if decide (idx ≠ -1) then
    let s1 := setIsPlaying true (setActiveIndex (Some idx) s) in
    if negb (App.isSongPath (path s)) then navigate ("/song/" +:+ slug song) s1
    else s1
  else s.

(** [hasTrack ? songs[activeIndex] : null] in the MiniPlayer. *)
Definition song (s : State) : option Song :=
  i ← activeIndex s; JsArray.at_index (visible s) i.

Definition togglePlay (paused : bool) (s : State) : State :=
  match song s with
  | Some x =>
      if JsString.truthy (audioUrl x) then
        (if paused then setIsPlaying true s else setIsPlaying false s)
      else alert NO_AUDIO s
  | None => alert NO_AUDIO s
  end.

(** [if (!songs.length) return; if (activeIndex == null) return;
     setActiveIndex((activeIndex + dir + songs.length) % songs.length)] *)
Definition step (dir : Z) (s : State) : State :=
  match visible s, activeIndex s with
  | [], _ | _, None => s
  | _ :: _, Some i =>
      let len := Z.of_nat (length (visible s)) in
      setActiveIndex (Some ((i + dir + len) `rem` len)) s
  end.

Definition stop (s : State) : State := setIsPlaying false s.

(** The effect of the MiniPlayer: load and auto-play. *)
Definition loadEffect (s : State) : State :=
  match song s with
  | Some x =>
      let s1 := setAudioSrc (audioUrl x) s in
      if JsString.truthy (audioUrl x) then s1 else setIsPlaying false s1
  | None => s
  end.

Definition toggleLike (i : Z) (s : State) : State :=
  let m := liked (store s) in
  setLiked (<[i := negb (default false (m !! i))]> m) s.

Inductive Event :=
  | SetQuery (q : string)
  | Navigate (to : string)
  | HashChange (hash : string)
  | SetSortMode (m : string)
  | ToggleLike (i : Z)
  | Unlock (pw : string)
  | UpdateSong (i : Z) (url : string)
  | PlaySong (x : Song)
  | StepPrev
  | StepNext
  | Ended
  | TogglePlay (paused : bool)
  | Stop
  | PlaySettled (ok : bool).

Definition handle (e : Event) (s : State) : State :=
  match e with
  | SetQuery q => setQuery q s
  | Navigate to => navigate to s
  | HashChange h => readHash h s
  | SetSortMode m => setSortMode m s
  | ToggleLike i => toggleLike i s
  | Unlock pw =>
      setPrivateUnlocked
        (bool_decide (0 < String.length (JsString.trim pw))%nat) s
  | UpdateSong i url => updateSong i url s
  | PlaySong x => playBySong x s
  | StepPrev => step (-1) s
  | StepNext => step 1 s
  | Ended => step 1 s
  | TogglePlay paused => togglePlay paused s
  | Stop => stop s
  | PlaySettled ok => setIsPlaying ok s
  end.

(** The effect depends on [activeIndex] and on the memoised visible
    list, which is a new array whenever one of its inputs changed; a
    like toggle and a song update always build a new object. *)
Definition effectDue (e : Event) (s s' : State) : bool :=
  bool_decide (activeIndex s' ≠ activeIndex s)
  || bool_decide (path s' ≠ path s)
  || bool_decide (query s' ≠ query s)
  || bool_decide (privateUnlocked (store s') ≠ privateUnlocked (store s))
  || bool_decide (sortMode (store s') ≠ sortMode (store s))
  || match e with ToggleLike _ | UpdateSong _ _ => true | _ => false end.

Definition dispatch (e : Event) (s : State) : State :=
  let s' := handle e s in
  if effectDue e s s' then loadEffect s' else s'.

Definition run (es : list Event) (s : State) : State :=
  foldl (λ acc e, dispatch e acc) s es.

Definition mount (d : Persisted) (hash : string) : State :=
  readHash hash
    {| path := "/"; query := ""; store := d; activeIndex := None;
       isPlaying := false; audioSrc := ""; alerts := [] |}.

End handlers.
End LiveIndex.

(** ** The Data page: bulk import *)
Module DataPage.

Local Set Warnings "-register-all".

(** A parsed JSON value.  Of a number the import only reads whether it
    is zero. *)
Inductive json :=
  | JNull
  | JBool (b : bool)
  | JNumber (n : Z)
  | JString (s : string)
  | JArray (items : list json)
  | JObject (fields : list (string * json)).

(** [typeof v === "object"] *)
Definition typeofObject (v : json) : bool :=
  match v with
  | JNull | JArray _ | JObject _ => true
  | _ => false
  end.

Definition truthy (v : json) : bool :=
  match v with
  | JNull => false
  | JBool b => b
  | JNumber n => bool_decide (n ≠ 0)
  | JString s => JsString.truthy s
  | JArray _ | JObject _ => true
  end.

(** [fields] in source order; of a duplicated key [JSON.parse] keeps the
    last value. *)
Fixpoint lookupField (k : string) (fields : list (string * json)) : option json :=
  match fields with
  | [] => None
  | (k', v) :: rest =>
      match lookupField k rest with
      | Some w => Some w
      | None => if decide (k' = k) then Some v else None
      end
  end.

(** [parsed.k] for one of the six slice names [k]; [None] is
    [undefined].  An array has no such property. *)
Definition prop (parsed : json) (k : string) : option json :=
  match parsed with
  | JObject fields => lookupField k fields
  | _ => None
  end.

(** The slices as the running program holds them: whatever JSON the
    last import stored. *)
Record Slices := {
  songs : list json;
  liked : json;
  comments : json;
  guestbook : list json;
  privateUnlocked : bool;
  sortMode : string;
}.

Record State := { slices : Slices; status : string }.

(** What the file input delivers: no file, or a file whose text
    [JSON.parse] rejects ([None]) or parses. *)
Inductive Upload :=
  | NoFile
  | File (parsed : option json).

Definition IMPORT_COMPLETE : string := "Import complete.".
Definition IMPORT_FAILED : string := "Import failed: invalid JSON.".

Definition importSongs (parsed : json) (d : Slices) : Slices :=
  match prop parsed "songs" with
  | Some (JArray l) =>
      {| songs := l; liked := liked d; comments := comments d;
         guestbook := guestbook d; privateUnlocked := privateUnlocked d;
         sortMode := sortMode d |}
  | _ => d
  end.

Definition importLiked (parsed : json) (d : Slices) : Slices :=
  match prop parsed "liked" with
  | Some v =>
      if truthy v && typeofObject v then
        {| songs := songs d; liked := v; comments := comments d;
           guestbook := guestbook d; privateUnlocked := privateUnlocked d;
           sortMode := sortMode d |}
      else d
  | None => d
  end.

Definition importComments (parsed : json) (d : Slices) : Slices :=
  match prop parsed "comments" with
  | Some v =>
      if truthy v && typeofObject v then
        {| songs := songs d; liked := liked d; comments := v;
           guestbook := guestbook d; privateUnlocked := privateUnlocked d;
           sortMode := sortMode d |}
      else d
  | None => d
  end.

Definition importGuestbook (parsed : json) (d : Slices) : Slices :=
  match prop parsed "guestbook" with
  | Some (JArray l) =>
      {| songs := songs d; liked := liked d; comments := comments d;
         guestbook := l; privateUnlocked := privateUnlocked d;
         sortMode := sortMode d |}
  | _ => d
  end.

Definition importPrivateUnlocked (parsed : json) (d : Slices) : Slices :=
  match prop parsed "privateUnlocked" with
  | Some (JBool b) =>
      {| songs := songs d; liked := liked d; comments := comments d;
         guestbook := guestbook d; privateUnlocked := b;
         sortMode := sortMode d |}
  | _ => d
  end.

Definition importSortMode (parsed : json) (d : Slices) : Slices :=
  match prop parsed "sortMode" with
  | Some (JString m) =>
      {| songs := songs d; liked := liked d; comments := comments d;
         guestbook := guestbook d; privateUnlocked := privateUnlocked d;
         sortMode := m |}
  | _ => d
  end.

(** [if (!parsed || typeof parsed !== "object") throw new Error("Bad JSON")],
    then one guarded setter per slice and [setStatus("Import complete.")];
    the [catch] sets the failure status. *)
Definition onImportFile (u : Upload) (s : State) : State :=
  match u with
  | NoFile => s
  | File None => {| slices := slices s; status := IMPORT_FAILED |}
  | File (Some parsed) =>
      if negb (truthy parsed) || negb (typeofObject parsed) then
        {| slices := slices s; status := IMPORT_FAILED |}
      else
        {| slices :=
             importSortMode parsed
               (importPrivateUnlocked parsed
                  (importGuestbook parsed
                     (importComments parsed
                        (importLiked parsed (importSongs parsed (slices s))))));
           status := IMPORT_COMPLETE |}
  end.

(** The top level of the payload is a JSON object. *)
Definition isObject (v : json) : bool :=
  match v with JObject _ => true | _ => false end.

End DataPage.

(** ** The router and the document title *)
Module Router.

Record Route := { path : string; label : string }.

Definition routes : list Route := [
  {| path := "/"; label := "Home" |};
  {| path := "/music"; label := "Music" |};
  {| path := "/playlists"; label := "Playlists" |};
  {| path := "/stories"; label := "Stories" |};
  {| path := "/request"; label := "Request" |};
  {| path := "/guestbook"; label := "Guestbook" |};
  {| path := "/about"; label := "About" |};
  {| path := "/subscribe"; label := "Subscribe" |};
  {| path := "/private"; label := "Private" |};
  {| path := "/data"; label := "Data" |}
].

Definition SITE : string := "Brian's Songs".

(** The [switch (path)] of [computeTitle]. *)
Definition pageTitle (p : string) : string :=
  if decide (p = "/") then "Home – Brian's Songs"
  else if decide (p = "/music") then "Music – Brian's Songs"
  else if decide (p = "/playlists") then "Playlists – Brian's Songs"
  else if decide (p = "/stories") then "Stories – Brian's Songs"
  else if decide (p = "/request") then "Request a Song – Brian's Songs"
  else if decide (p = "/guestbook") then "Guestbook – Brian's Songs"
  else if decide (p = "/about") then "About – Brian's Songs"
  else if decide (p = "/subscribe") then "Subscribe – Brian's Songs"
  else if decide (p = "/private") then "Private – Brian's Songs"
  else if decide (p = "/data") then "Data – Brian's Songs"
  else SITE.

(** [if (path.startsWith("/song/") && song?.title)
       return `${song.title} – Brian's Songs`;
     switch (path) ...] *)
Definition computeTitle (p : string) (song : option Song) : string :=
  match song with
  | Some x =>
      if App.isSongPath p && JsString.truthy (title x)
      then title x +:+ " – Brian's Songs"
      else pageTitle p
  | None => pageTitle p
  end.

(** [if (path.startsWith("/song/")) return "song";
     const match = routes.find((r) => r.path === path);
     return match ? match.label.toLowerCase() : "notfound"] *)
Definition currentRoute (p : string) : string :=
  if App.isSongPath p then "song"
  else match list_find (λ r, path r = p) routes with
       | Some (_, r) => JsString.toLowerCase (label r)
       | None => "notfound"
       end.


End Router.

(** ** Handlers and derived values of the pages *)
Module Pages.


(** MiniPlayer: [canStep={queue.length > 1 && queueIndex != null}] *)
Definition canStep (s : App.State) : bool :=
  bool_decide (1 < length (App.queue s))%nat
  && bool_decide (App.queueIndex s ≠ None).

(** MusicPage: the label under the heading. *)
Definition sortLabel (sortMode : string) : string :=
  if decide (sortMode = "newest") then "Sorted by Newest"
  else if decide (sortMode = "liked") then "Sorted by Most Liked"
  else "Sorted A–Z".

Definition isPublic (x : Song) : Prop := visibility x = "public".

(** HomePage: the featured teaser,
    [songs.filter((s) => s.visibility === "public").slice(0, 3)]. *)
Definition featured (songs : list Song) : list Song :=
  take 3 (filter isPublic songs).

(** PlaylistsPage: the songs of a mood bucket,
    [songs.filter((s) => b.mood === "southern"
        ? s.genre.toLowerCase().includes("southern") : s.moods.includes(b.mood))
      .filter((s) => s.visibility === "public").slice(0, 5)]. *)
Definition inBucket (mood : string) (x : Song) : Prop :=
  if decide (mood = "southern") then
    JsString.includes (JsString.toLowerCase (genre x)) "southern" = true
  else mood ∈ moods x.

#[export] Instance inBucket_dec mood x : Decision (inBucket mood x).
Proof. unfold inBucket. case_decide; apply _. Defined.

Definition bucket (mood : string) (songs : list Song) : list Song :=
  take 5 (filter isPublic (filter (inBucket mood) songs)).

Section latest.
Context {host : Host}.

(** HomePage: the song of the "Play Latest" button,
    [[...songs].filter((s) => s.visibility === "public").sort(byDateDesc)[0]]. *)
Definition latest (songs : list Song) : option Song :=
  head (JsArray.sort byDateDesc (filter isPublic songs)).

End latest.
End Pages.

(** ** The [useLocalStorage] hook

    [parse] is [JSON.parse] at the type of the slice ([None] when it
    throws) and [stringify] is [JSON.stringify].  The storage is [None]
    when access to [window.localStorage] throws. *)
Module LocalStorage.
Section hook.
Context {T : Type}.
Variable parse : string → option T.
Variable stringify : T → string.

(** The initial value of the state:
    [try { const item = window.localStorage.getItem(key);
           return item ? JSON.parse(item) : initialValue; }
     catch { return initialValue; }] *)
Definition initialState (st : option (gmap string string)) (key : string)
    (initialValue : T) : T :=
  match st with
  | None => initialValue
  | Some m =>
      match m !! key with
      | Some item =>
          if JsString.truthy item then default initialValue (parse item)
          else initialValue
      | None => initialValue
      end
  end.

(** The write-back effect:
    [try { window.localStorage.setItem(key, JSON.stringify(value)); }
     catch { /* ignore write errors */ }];
    [accepted] is false when [setItem] throws. *)
Definition writeBack (st : option (gmap string string)) (key : string)
    (value : T) (accepted : bool) : option (gmap string string) :=
  match st with
  | None => None
  | Some m => if accepted then Some (<[key := stringify value]> m) else Some m
  end.

End hook.
End LocalStorage.

(** ** The Data page: export *)
Module DataExport.
Import DataPage.

(** The object that [doExport] serialises; [exportedAt] is the time
    stamp of the render. *)
Definition dataObject (exportedAt : string) (d : Slices) : json :=
  JObject [
    ("version", JNumber 1);
    ("exportedAt", JString exportedAt);
    ("songs", JArray (songs d));
    ("liked", liked d);
    ("comments", comments d);
    ("guestbook", JArray (guestbook d));
    ("privateUnlocked", JBool (privateUnlocked d));
    ("sortMode", JString (sortMode d))
  ].

(** A slice holding an object or an array, as [liked] and [comments]
    always do. *)
Definition isContainer (v : json) : bool :=
  match v with JArray _ | JObject _ => true | _ => false end.

End DataExport.

(** ** Predicates used in the statements *)
Module Shape.

(** A string that is empty or starts with a character that is not
    white space. *)
Definition noLeadingWhite (s : string) : Prop :=
  match s with
  | EmptyString => True
  | String c _ => JsString.is_white c = false
  end.

(** [{ ...s, audioUrl: url }] on the songs with identifier [i]. *)
Definition patchAudio (i : Z) (url : string) (x : Song) : Song :=
  if decide (id x = i) then withAudioUrl url x else x.

(** The track of the current song as the MiniPlayer compares it:
    identifier and audio source. *)
Definition track (s : App.State) : option Z * string :=
  (id <$> App.currentSong s, default "" (audioUrl <$> App.currentSong s)).

End Shape.

(** ** JSON of a boolean slice *)
Module BoolJson.

(** [JSON.stringify(b)] *)
Definition stringify (b : bool) : string := if b then "true" else "false".

(** [JSON.parse(item)] read as a boolean; [None] when it throws or
    yields another value. *)
Definition parse (item : string) : option bool :=
  if decide (item = "true") then Some true
  else if decide (item = "false") then Some false
  else None.

End BoolJson.

(** ** Plain inputs

    The inputs on which the definitions above compute what the engine
    computes.  On a string whose code units are all below 128,
    [String.prototype.toLowerCase] folds the letters [A-Z] and nothing
    else, and [String.prototype.trim] strips TAB, LF, VT, FF, CR and
    SPACE and nothing else.  A like count that is a non-negative
    integer below 2^53 is added to and subtracted as a double without
    rounding.  A path of printable ASCII outside the fragment
    percent-encode set is stored by [location.hash] as it is written.

    Equality up to the case of the letters [A-Z], and containment up
    to that case, are defined on the characters themselves. *)
Module Plain.

Definition isAscii (c : ascii) : bool := (nat_of_ascii c <? 128)%nat.

Fixpoint asciiOnly (s : string) : bool :=
  match s with
  | EmptyString => true
  | String c r => isAscii c && asciiOnly r
  end.

(** The fields of a song that the text filter reads. *)
Definition plainSong (x : Song) : Prop :=
  asciiOnly (title x) = true ∧ asciiOnly (genre x) = true
  ∧ asciiOnly (JsString.join " " (moods x)) = true.

Definition isUpper (c : ascii) : bool :=
  ((65 <=? nat_of_ascii c) && (nat_of_ascii c <=? 90))%nat.

(** The same character, or the capital and the small form of one
    letter. *)
Definition sameLetter (c d : ascii) : Prop :=
  c = d
  ∨ (isUpper c = true ∧ nat_of_ascii d = (nat_of_ascii c + 32)%nat)
  ∨ (isUpper d = true ∧ nat_of_ascii c = (nat_of_ascii d + 32)%nat).

(** Equality of two texts up to the case of their letters. *)
Fixpoint ciEq (u v : string) : Prop :=
  match u, v with
  | EmptyString, EmptyString => True
  | String c u', String d v' => sameLetter c d ∧ ciEq u' v'
  | _, _ => False
  end.


(** A string that is empty or ends with a character that is not
    white space. *)
Fixpoint noTrailingWhite (s : string) : Prop :=
  match s with
  | EmptyString => True
  | String c EmptyString => JsString.is_white c = false
  | String _ r => noTrailingWhite r
  end.

(** The characters that the setter of [location.hash] stores as they
    are: printable ASCII but for the space, the double quote, the
    angle brackets and the back quote, which the fragment of a URL
    percent-encodes. *)
Definition fragmentSafeChar (c : ascii) : bool :=
  let n := nat_of_ascii c in
  ((33 <=? n) && (n <=? 126) && negb (n =? 34) && negb (n =? 60)
   && negb (n =? 62) && negb (n =? 96))%nat.

Fixpoint fragmentSafe (s : string) : bool :=
  match s with
  | EmptyString => true
  | String c r => fragmentSafeChar c && fragmentSafe r
  end.

(** A like count that JavaScript adds one to without rounding: a
    non-negative integer below 2^53. *)
Definition safeLikes (x : Song) : Prop := 0 ≤ likes x < 2 ^ 53.

End Plain.

(** * Properties *)

(** ** Strings *)
Module JsStringFacts.
Import JsString.

Lemma trimStart_all_white s : all_white s = true → trimStart s = "".
Proof.
  induction s as [|c s IH]; simpl; [done|].
  intros [Hc Hs]%andb_prop. rewrite Hc. auto.
Qed.

Lemma trim_all_white s : all_white s = true → trim s = "".
Proof. intros H. unfold trim. by rewrite trimStart_all_white. Qed.

Lemma truthy_spec s : truthy s = true ↔ s ≠ "".
Proof. destruct s; simpl; split; (done || congruence). Qed.

End JsStringFacts.

(** ** The sort *)
Module JsArrayFacts.
Import JsArray.

Section sort_facts.
Context {A : Type} (cmp : A → A → option Z).

Lemma insert_Permutation x l : insert cmp x l ≡ₚ x :: l.
Proof.
  induction l as [|y l IH]; simpl; [done|].
  case_decide; [done|]. rewrite IH. apply Permutation_swap.
Qed.

Lemma sort_Permutation l : sort cmp l ≡ₚ l.
Proof.
  induction l as [|x l IH]; simpl; [done|].
  rewrite insert_Permutation. by constructor.
Qed.

Lemma elem_of_sort x l : x ∈ sort cmp l ↔ x ∈ l.
Proof. by rewrite sort_Permutation. Qed.

Lemma length_sort l : length (sort cmp l) = length l.
Proof. by rewrite sort_Permutation. Qed.

(** Elements that the comparator ranks equal among themselves keep
    their relative order. *)
Lemma insert_stable (P : A → Prop) `{!∀ x, Decision (P x)} x l :
  (∀ a b, P a → P b → sortCompare cmp a b ≤ 0) →
  filter P (insert cmp x l) = filter P (x :: l).
Proof.
  intros HP. induction l as [|y l IH]; simpl; [done|].
  case_decide as Hxy; [done|].
  rewrite filter_cons, IH, !filter_cons.
  destruct (decide (P y)), (decide (P x)); try done.
  exfalso. apply Hxy. by apply HP.
Qed.

Lemma sort_stable (P : A → Prop) `{!∀ x, Decision (P x)} l :
  (∀ a b, P a → P b → sortCompare cmp a b ≤ 0) →
  filter P (sort cmp l) = filter P l.
Proof.
  intros HP. induction l as [|x l IH]; simpl; [done|].
  rewrite insert_stable by done. by rewrite !filter_cons, IH.
Qed.

(** For a comparator that decides a total preorder [R], the result is
    sorted: every element is in relation with all that follow it. *)
Section sorted.
Context (R : relation A).
Hypothesis R_spec : ∀ a b, sortCompare cmp a b ≤ 0 ↔ R a b.
Hypothesis R_total : ∀ a b, R a b ∨ R b a.
Hypothesis R_trans : ∀ a b c, R a b → R b c → R a c.

Lemma insert_StronglySorted x l :
  StronglySorted R l → StronglySorted R (insert cmp x l).
Proof.
  induction 1 as [|y l Hl IH Hy]; simpl.
  - repeat constructor.
  - case_decide as Hxy.
    + apply R_spec in Hxy. constructor; [by constructor|].
      constructor; [done|]. eapply Forall_impl; [exact Hy|]. eauto.
    + constructor; [done|].
      assert (R y x) by (destruct (R_total x y) as [?%R_spec|?]; done).
      apply Forall_forall. intros z Hz.
      apply (elem_of_Permutation_proper _ _ _ (insert_Permutation x l)) in Hz.
      apply elem_of_cons in Hz as [->|Hz]; [done|].
      by eapply Forall_forall in Hy.
Qed.

Lemma sort_StronglySorted l : StronglySorted R (sort cmp l).
Proof.
  induction l as [|x l IH]; simpl; [constructor|].
  by apply insert_StronglySorted.
Qed.
End sorted.
End sort_facts.

(** The sort only consults the comparator on elements of the array. *)
Lemma insert_ext_in {A} (c1 c2 : A → A → option Z) x l :
  (∀ b, b ∈ l → c1 x b = c2 x b) → insert c1 x l = insert c2 x l.
Proof.
  induction l as [|y l IH]; intros H; simpl; [done|].
  unfold sortCompare. rewrite (H y) by left.
  case_decide; [done|]. f_equal. apply IH. intros b Hb. apply H. by right.
Qed.

Lemma sort_ext_in {A} (c1 c2 : A → A → option Z) l :
  (∀ a b, a ∈ l → b ∈ l → c1 a b = c2 a b) → sort c1 l = sort c2 l.
Proof.
  induction l as [|x l IH]; intros H; simpl; [done|].
  rewrite IH by (intros; apply H; by right).
  apply insert_ext_in. intros b Hb%elem_of_sort. apply H; [left|by right].
Qed.

Lemma indexOf_spec xs x :
  (indexOf xs x = -1 ∧ x ∉ xs) ∨
  (∃ n : nat, indexOf xs x = Z.of_nat n ∧ xs !! n = Some x
              ∧ ∀ m y, (m < n)%nat → xs !! m = Some y → y ≠ x).
Proof.
  induction xs as [|y xs IH]; simpl.
  - left. split; [done|]. apply not_elem_of_nil.
  - case_decide as Hy.
    + subst. right. exists 0%nat. split_and!; [done..|]. intros; lia.
    + destruct IH as [[-> Hn]|(n & -> & Hl & Hmin)].
      * left. rewrite decide_True by done. split; [done|].
        intros [?|?]%elem_of_cons; [congruence|done].
      * right. rewrite decide_False by lia. exists (S n).
        split_and!; [lia|done|].
        intros [|m] z Hm; simpl; [by intros [= <-]|]. apply Hmin. lia.
Qed.

Lemma indexOf_absent xs x : indexOf xs x = -1 ↔ x ∉ xs.
Proof.
  destruct (indexOf_spec xs x) as [[? ?]|(n & Hn & Hl & _)]; [done|].
  split; [lia|]. intros []. by eapply list_elem_of_lookup_2.
Qed.

End JsArrayFacts.

(** ** Substrings *)
Module SubstringFacts.
Import JsString.

Lemma app_empty_l s : "" +:+ s = s.
Proof. reflexivity. Qed.

Lemma app_String c a b : String c a +:+ b = String c (a +:+ b).
Proof. reflexivity. Qed.

Lemma startsWith_spec s p : startsWith s p = true ↔ ∃ b, s = p +:+ b.
Proof.
  revert s. induction p as [|c p IH]; intros s; simpl.
  - split; [|done]. intros _. by exists s.
  - destruct s as [|a s].
    + split; [done|]. intros [b Hb]. by rewrite app_String in Hb.
    + case_decide as Hac.
      * subst. rewrite IH. split; intros [b Hb]; exists b.
        -- by rewrite app_String, Hb.
        -- rewrite app_String in Hb. by injection Hb.
      * split; [done|]. intros [b Hb]. rewrite app_String in Hb.
        injection Hb. congruence.
Qed.

(** [includes s q] holds exactly when [q] occurs inside [s]. *)
Lemma includes_spec s q : includes s q = true ↔ ∃ a b, s = a +:+ q +:+ b.
Proof.
  induction s as [|c s IH]; simpl.
  - rewrite orb_false_r, startsWith_spec. split.
    + intros [b Hb]. by exists "", b.
    + intros ([|] & b & Hb); [by exists b|by rewrite app_String in Hb].
  - rewrite orb_true_iff, startsWith_spec, IH. split.
    + intros [[b Hb]|(a & b & Hb)].
      * by exists "", b.
      * exists (String c a), b. by rewrite app_String, Hb.
    + intros ([|c' a] & b & Hb).
      * left. by exists b.
      * right. exists a, b. rewrite app_String in Hb. by injection Hb.
Qed.

End SubstringFacts.

(** ** Case folding and trimming *)
Module Normalise.
Import JsString Shape.

Lemma lower_ascii_idemp c : lower_ascii (lower_ascii c) = lower_ascii c.
Proof. by destruct c as [[] [] [] [] [] [] [] []]. Qed.

Lemma is_white_lower c : is_white (lower_ascii c) = is_white c.
Proof. by destruct c as [[] [] [] [] [] [] [] []]. Qed.

Lemma toLowerCase_idemp s : toLowerCase (toLowerCase s) = toLowerCase s.
Proof. induction s as [|c s IH]; simpl; [done|]. by rewrite lower_ascii_idemp, IH. Qed.

Lemma trimStart_lower s : trimStart (toLowerCase s) = toLowerCase (trimStart s).
Proof.
  induction s as [|c s IH]; simpl; [done|].
  rewrite is_white_lower. by destruct (is_white c).
Qed.

Lemma trimEnd_lower s : trimEnd (toLowerCase s) = toLowerCase (trimEnd s).
Proof.
  induction s as [|c s IH]; simpl; [done|].
  rewrite IH, is_white_lower. destruct (trimEnd s); simpl; [|done].
  by destruct (is_white c).
Qed.

Lemma trim_lower s : trim (toLowerCase s) = toLowerCase (trim s).
Proof. unfold trim. by rewrite trimStart_lower, trimEnd_lower. Qed.

Lemma trimStart_noLeadingWhite s : noLeadingWhite (trimStart s).
Proof.
  induction s as [|c s IH]; simpl; [done|].
  destruct (is_white c) eqn:Hc; [done|]. simpl. by rewrite Hc.
Qed.

Lemma trimStart_fixed s : noLeadingWhite s → trimStart s = s.
Proof. destruct s as [|c s]; simpl; [done|]. by intros ->. Qed.

Lemma trimEnd_noLeadingWhite s : noLeadingWhite s → noLeadingWhite (trimEnd s).
Proof.
  destruct s as [|c s]; simpl; [done|]. intros Hc.
  destruct (trimEnd s); simpl; by rewrite ?Hc.
Qed.

Lemma trimEnd_idemp s : trimEnd (trimEnd s) = trimEnd s.
Proof.
  induction s as [|c s IH]; simpl; [done|].
  destruct (trimEnd s) as [|d r] eqn:Hr.
  - destruct (is_white c) eqn:Hc; simpl; by rewrite ?Hc.
  - simpl in *. by rewrite IH.
Qed.

Lemma trim_idemp s : trim (trim s) = trim s.
Proof.
  unfold trim. rewrite (trimStart_fixed (trimEnd _)).
  - apply trimEnd_idemp.
  - apply trimEnd_noLeadingWhite, trimStart_noLeadingWhite.
Qed.

Lemma trimStart_empty s : trimStart s = "" ↔ all_white s = true.
Proof.
  induction s as [|c s IH]; simpl; [done|].
  destruct (is_white c); simpl; [done|]. split; [done|]. intros [=].
Qed.

Lemma trimEnd_empty s : trimEnd s = "" ↔ all_white s = true.
Proof.
  induction s as [|c s IH]; simpl; [done|].
  destruct (trimEnd s) as [|d r] eqn:Hr.
  - destruct (is_white c); simpl; [by rewrite <- IH|done].
  - rewrite andb_true_iff, <- IH. split; [done|]. by intros [_ ?].
Qed.

Lemma all_white_trimStart s : all_white (trimStart s) = all_white s.
Proof.
  induction s as [|c s IH]; simpl; [done|].
  destruct (is_white c) eqn:Hc; simpl; [done|]. by rewrite Hc.
Qed.

Lemma trim_empty s : trim s = "" ↔ all_white s = true.
Proof. unfold trim. by rewrite trimEnd_empty, all_white_trimStart. Qed.

End Normalise.

(** ** Folding and trimming, character by character *)
Module CaseFold.
Import JsString Shape Plain.

Lemma nat_of_ascii_inj c d : nat_of_ascii c = nat_of_ascii d → c = d.
Proof.
  intros H. rewrite <- (ascii_nat_embedding c), <- (ascii_nat_embedding d).
  by rewrite H.
Qed.

Lemma lower_ascii_upper c :
  isUpper c = true →
  nat_of_ascii (lower_ascii c) = (nat_of_ascii c + 32)%nat.
Proof.
  intros H. unfold lower_ascii. unfold isUpper in H. rewrite H.
  apply nat_ascii_embedding.
  apply andb_true_iff in H as [_ H%Nat.leb_le]. lia.
Qed.

Lemma lower_ascii_other c : isUpper c = false → lower_ascii c = c.
Proof. intros H. unfold lower_ascii. unfold isUpper in H. by rewrite H. Qed.

Lemma isUpper_bounds c :
  isUpper c = true ↔ (65 ≤ nat_of_ascii c ≤ 90)%nat.
Proof.
  unfold isUpper. rewrite andb_true_iff, !Nat.leb_le. done.
Qed.

(** Two characters fold to the same character exactly when they are
    the same letter. *)
Lemma lower_ascii_eq c d : lower_ascii c = lower_ascii d ↔ sameLetter c d.
Proof.
  unfold sameLetter.
  destruct (isUpper c) eqn:Hc, (isUpper d) eqn:Hd.
  - pose proof (lower_ascii_upper c Hc) as Ec.
    pose proof (lower_ascii_upper d Hd) as Ed.
    apply isUpper_bounds in Hc, Hd. split.
    + intros E. left. apply nat_of_ascii_inj. rewrite E in Ec. lia.
    + intros [->|[[_ E]|[_ E]]]; [done|lia..].
  - pose proof (lower_ascii_upper c Hc) as Ec.
    rewrite (lower_ascii_other d Hd). split.
    + intros E. right. left. split; [done|]. by rewrite <- E.
    + intros [->|[[_ E]|[E _]]]; [congruence| |done].
      apply nat_of_ascii_inj. by rewrite Ec.
  - pose proof (lower_ascii_upper d Hd) as Ed.
    rewrite (lower_ascii_other c Hc). split.
    + intros E. right. right. split; [done|]. by rewrite E.
    + intros [->|[[E _]|[_ E]]]; [congruence|done|].
      apply nat_of_ascii_inj. by rewrite Ed.
  - rewrite (lower_ascii_other c Hc), (lower_ascii_other d Hd). split.
    + by left.
    + by intros [?|[[? _]|[? _]]].
Qed.

Lemma toLowerCase_eq u v : toLowerCase u = toLowerCase v ↔ ciEq u v.
Proof.
  revert v. induction u as [|c u IH]; intros [|d v]; simpl; try done.
  rewrite <- IH, <- lower_ascii_eq. split.
  - by intros [= ? ?].
  - by intros [-> ->].
Qed.




(** *** Trimming *)

Lemma trimStart_pad pre r : all_white pre = true → trimStart (pre +:+ r) = trimStart r.
Proof.
  induction pre as [|c pre IH]; [done|].
  rewrite SubstringFacts.app_String. simpl.
  intros [Hc Hp]%andb_true_iff. rewrite Hc. auto.
Qed.




Lemma trimEnd_app_white x post :
  all_white post = true → trimEnd (x +:+ post) = trimEnd x.
Proof.
  intros Hp. induction x as [|c x IH].
  - rewrite SubstringFacts.app_empty_l. by apply Normalise.trimEnd_empty.
  - rewrite SubstringFacts.app_String. simpl. by rewrite IH.
Qed.

Lemma trimStart_app q post :
  trimStart (q +:+ post)
  = if all_white q then trimStart post else trimStart q +:+ post.
Proof.
  induction q as [|c q IH]; [done|].
  rewrite SubstringFacts.app_String. simpl.
  destruct (is_white c); simpl; [done|].
  by rewrite SubstringFacts.app_String.
Qed.

(** Blanks around a text do not change what [trim] returns. *)
Lemma trim_pad pre q post :
  all_white pre = true → all_white post = true →
  trim (pre +:+ q +:+ post) = trim q.
Proof.
  intros Hpre Hpost. unfold trim. rewrite trimStart_pad by done.
  rewrite trimStart_app. destruct (all_white q) eqn:Hq.
  - rewrite (proj2 (Normalise.trimStart_empty post) Hpost).
    by rewrite (proj2 (Normalise.trimStart_empty q) Hq).
  - by apply trimEnd_app_white.
Qed.

Lemma toLowerCase_empty s : toLowerCase s = "" ↔ s = "".
Proof. by destruct s. Qed.

(** Every text is blanks, a core without blanks at its ends, and
    blanks. *)
Lemma query_decomposition q :
  ∃ pre core post,
    q = pre +:+ core +:+ post ∧ all_white pre = true ∧ all_white post = true
    ∧ noLeadingWhite core ∧ noTrailingWhite core.
Proof.
  assert (∀ s, ∃ pre, s = pre +:+ trimStart s ∧ all_white pre = true) as Hs.
  { induction s as [|c s (pre & IH & Hw)]; [by exists ""|]. simpl.
    destruct (is_white c) eqn:Hc.
    - exists (String c pre). rewrite SubstringFacts.app_String, <- IH.
      simpl. by rewrite Hc.
    - by exists "". }
  assert (∀ s, ∃ post, s = trimEnd s +:+ post ∧ all_white post = true
                       ∧ noTrailingWhite (trimEnd s)) as He.
  { induction s as [|c s (post & IH & Hw & Ht)]; [by exists ""|]. simpl.
    destruct (trimEnd s) as [|d r] eqn:E.
    - rewrite SubstringFacts.app_empty_l in IH. subst post.
      destruct (is_white c) eqn:Hc.
      + exists (String c s). rewrite SubstringFacts.app_empty_l. simpl.
        by rewrite Hc.
      + exists s. by rewrite SubstringFacts.app_String, SubstringFacts.app_empty_l.
    - exists post. rewrite SubstringFacts.app_String, <- IH. done. }
  destruct (Hs q) as (pre & Hq & Hpre).
  destruct (He (trimStart q)) as (post & Hr & Hpost & Ht).
  exists pre, (trimEnd (trimStart q)), post. split_and!; try done.
  - by rewrite <- Hr.
  - apply Normalise.trimEnd_noLeadingWhite, Normalise.trimStart_noLeadingWhite.
Qed.

End CaseFold.

(** ** The concrete host is lawful *)
Module IsoHostFacts.
Import IsoHost.

Lemma codeUnitCompare_le a b : codeUnitCompare a b ≤ 0 ↔ String.le a b.
Proof.
  unfold codeUnitCompare, String.le, String.leb.
  destruct (String.compare a b); simpl; split; intros; (lia || done).
Qed.

#[export] Instance laws : HostLaws host.
Proof.
  split; simpl; intros *; rewrite !codeUnitCompare_le.
  - destruct (total String.le a b); auto.
  - apply transitivity.
Qed.

End IsoHostFacts.

(** ** The visible songs *)
Module View.
Import JsString JsArray JsArrayFacts Shape Plain CaseFold.

Section view_facts.
Context {host : Host}.

Lemma gate_subseteq songs path unlocked s :
  s ∈ gate songs path unlocked → s ∈ songs.
Proof.
  unfold gate. case_decide.
  - by intros [_ ?]%list_elem_of_filter.
  - destruct unlocked; simpl; [done|]. by intros ?%elem_of_nil.
Qed.

Lemma length_gate songs path unlocked :
  (length (gate songs path unlocked) ≤ length songs)%nat.
Proof.
  unfold gate. case_decide; [apply length_filter|].
  destruct unlocked; simpl; lia.
Qed.

Lemma textFilter_subseteq query base s :
  s ∈ textFilter query base → s ∈ base.
Proof.
  unfold textFilter. destruct (truthy _); [|done].
  by intros [_ ?]%list_elem_of_filter.
Qed.

Lemma length_textFilter query base :
  (length (textFilter query base) ≤ length base)%nat.
Proof. unfold textFilter. destruct (truthy _); [apply length_filter|done]. Qed.

Lemma visibleSongs_Permutation songs query path unlocked mode liked :
  visibleSongs songs query path unlocked mode liked
  ≡ₚ textFilter query (gate songs path unlocked).
Proof. apply sort_Permutation. Qed.

Lemma elem_of_visibleSongs songs query path unlocked mode liked s :
  s ∈ visibleSongs songs query path unlocked mode liked
  ↔ s ∈ textFilter query (gate songs path unlocked).
Proof. by rewrite visibleSongs_Permutation. Qed.

Lemma matches_spec q s :
  matches q s = true ↔
    (∃ a b, toLowerCase (title s) = a +:+ q +:+ b)
    ∨ (∃ a b, toLowerCase (genre s) = a +:+ q +:+ b)
    ∨ (∃ a b, toLowerCase (join " " (moods s)) = a +:+ q +:+ b).
Proof.
  unfold matches.
  rewrite !orb_true_iff, !SubstringFacts.includes_spec. tauto.
Qed.

(** C2. Visibility gate: away from the private route only public songs
    are listed; on the private route nothing is listed while locked,
    and once unlocked the gate lets every song of the catalog through,
    whatever its visibility, so that the list is the sorted text filter
    of the whole catalog; the list is never longer than the catalog. *)
Theorem visibility_gating songs query path unlocked mode liked :
  let out := visibleSongs songs query path unlocked mode liked in
  (path ≠ "/private" → ∀ s, s ∈ out → visibility s = "public" ∧ s ∈ songs)
  ∧ (path = "/private" → unlocked = false → out = [])
  ∧ (path = "/private" → unlocked = true →
       gate songs path unlocked = songs
       ∧ out ≡ₚ textFilter query songs
       ∧ ∀ s, s ∈ songs → s ∈ textFilter query songs → s ∈ out)
  ∧ (length out ≤ length songs)%nat.
Proof.
  intros out. split_and!.
  - intros Hp s Hs%elem_of_visibleSongs%textFilter_subseteq.
    unfold gate in Hs. rewrite decide_True in Hs by done.
    by apply list_elem_of_filter in Hs.
  - intros -> ->. apply Permutation_nil_r. unfold out.
    rewrite visibleSongs_Permutation. unfold gate, textFilter. simpl.
    by destruct (truthy _).
  - intros -> ->.
    assert (gate songs "/private" true = songs) as Hg by done.
    split_and!; [done|..].
    + unfold out. by rewrite visibleSongs_Permutation, Hg.
    + intros s _ Hs. apply elem_of_visibleSongs. by rewrite Hg.
  - unfold out. rewrite visibleSongs_Permutation.
    etrans; [apply length_textFilter|apply length_gate].
Qed.




(** The comparator of the sort mode: [liked] and [az] are the only
    modes told apart from [newest]. *)
Lemma comparator_newest liked : comparator "newest" liked = byDateDesc.
Proof. done. Qed.

Lemma comparator_liked liked : comparator "liked" liked = byLikesDesc liked.
Proof. done. Qed.

Lemma comparator_az liked : comparator "az" liked = byTitleAsc.
Proof. done. Qed.

Lemma comparator_other m liked :
  m ≠ "liked" → m ≠ "az" → comparator m liked = byDateDesc.
Proof. intros. unfold comparator. by rewrite !decide_False. Qed.

Lemma likeWeight_spec liked s :
  likeWeight liked s
  = likes s + (if decide (liked !! id s = Some true) then 1 else 0).
Proof.
  unfold likeWeight, likeBonus.
  destruct (liked !! id s) as [[]|]; simpl; repeat case_decide; congruence.
Qed.

(** C8. Ordering by sort mode.  Each mode lists the filtered songs in
    an order that is: for [newest], descending by release time, songs
    of equal time keeping their relative order; for [liked],
    descending by the baseline likes plus one for a song the overlay
    marks liked; for [az], ascending by the locale's comparison of
    titles; and every other sort mode orders exactly as [newest].
    Release dates are dates: [t] gives their time values.  Like
    counts are non-negative integers below 2^53, the range in which
    the sums and the difference that the comparator computes are
    exact. *)
Theorem ordering_by_mode songs query path unlocked liked (t : Song → Z) :
  let base := textFilter query (gate songs path unlocked) in
  let out := λ m, visibleSongs songs query path unlocked m liked in
  let w := λ s, likes s + (if decide (liked !! id s = Some true) then 1 else 0) in
  ((∀ s, s ∈ songs → getTime (releaseDate s) = Some (t s)) →
     StronglySorted (λ a b, t b ≤ t a) (out "newest")
     ∧ out "newest" ≡ₚ base
     ∧ ∀ d, filter (λ s, t s = d) (out "newest") = filter (λ s, t s = d) base)
  ∧ ((∀ s, s ∈ songs → safeLikes s) →
     StronglySorted (λ a b, w b ≤ w a) (out "liked")
     ∧ out "liked" ≡ₚ base
     ∧ ∀ n, filter (λ s, w s = n) (out "liked") = filter (λ s, w s = n) base)
  ∧ (HostLaws host →
     StronglySorted (λ a b, localeCompare (title a) (title b) ≤ 0) (out "az")
     ∧ out "az" ≡ₚ base
     ∧ ∀ x, filter (λ s, title s = x) (out "az") = filter (λ s, title s = x) base)
  ∧ (∀ m, m ≠ "liked" → m ≠ "az" → out m = out "newest").
Proof.
  intros base out w. split; [|split; [|split]].
  - intros Ht.
    assert (out "newest" = sort (λ a b, Some (t b - t a)) base) as ->.
    { unfold out, visibleSongs. rewrite comparator_newest.
      apply sort_ext_in. intros a b Ha Hb. unfold byDateDesc.
      apply textFilter_subseteq, gate_subseteq in Ha.
      apply textFilter_subseteq, gate_subseteq in Hb.
      by rewrite (Ht a), (Ht b). }
    split_and!.
    + apply sort_StronglySorted; unfold sortCompare; simpl; intros; lia.
    + apply sort_Permutation.
    + intros d. apply sort_stable. unfold sortCompare. simpl. intros; lia.
  - intros _.
    assert (∀ s, likeWeight liked s = w s) as Hw
      by (intros; apply likeWeight_spec).
    unfold out, visibleSongs. rewrite comparator_liked. fold base. split_and!.
    + apply sort_StronglySorted; unfold sortCompare, byLikesDesc; simpl;
        intros *; rewrite ?Hw; lia.
    + apply sort_Permutation.
    + intros n. apply sort_stable. unfold sortCompare, byLikesDesc. simpl.
      intros a b. rewrite !Hw. lia.
  - intros laws. unfold out, visibleSongs. rewrite comparator_az. fold base.
    split_and!.
    + apply sort_StronglySorted; unfold sortCompare, byTitleAsc; simpl.
      * done.
      * intros; apply localeCompare_total.
      * intros *; apply localeCompare_trans.
    + apply sort_Permutation.
    + intros x. apply sort_stable. unfold sortCompare, byTitleAsc. simpl.
      intros a b Ha Hb. rewrite Ha, Hb.
      by destruct (localeCompare_total x x).
  - intros m H1 H2. unfold out, visibleSongs.
    by rewrite comparator_other, comparator_newest.
Qed.

End view_facts.
End View.

(** ** The playback queue *)
Module Player.
Import JsString JsArray JsArrayFacts App.

Section player_facts.
Context {host : Host}.

Ltac unfold_effect :=
  unfold trackEffect; repeat case_decide; repeat (destruct (truthy _)); simpl.

Lemma trackEffect_queue s : queue (trackEffect s) = queue s.
Proof. by unfold_effect. Qed.

Lemma trackEffect_queueIndex s : queueIndex (trackEffect s) = queueIndex s.
Proof. by unfold_effect. Qed.

Lemma trackEffect_alerts s : alerts (trackEffect s) = alerts s.
Proof. by unfold_effect. Qed.

Lemma trackEffect_store s : store (trackEffect s) = store s.
Proof. by unfold_effect. Qed.

Lemma trackEffect_currentSong s : currentSong (trackEffect s) = currentSong s.
Proof. by unfold_effect. Qed.

Lemma trackEffect_synced s : synced (trackEffect s).
Proof.
  unfold synced. rewrite trackEffect_currentSong.
  unfold trackEffect. case_decide as Hc.
  - by destruct (truthy _).
  - apply Decidable.not_or in Hc as [H1 H2].
    split; [by apply dec_stable in H1|by apply dec_stable in H2].
Qed.

Lemma trackEffect_id s : synced s → trackEffect s = s.
Proof.
  intros [H1 H2]. unfold trackEffect.
  rewrite decide_False; [done|]. intros [?|?]; congruence.
Qed.

(** The handlers that neither start playback nor step. *)
Lemma handle_keeps_queue e s :
  startsOrSteps e = false →
  queue (handle e s) = queue s ∧ queueIndex (handle e s) = queueIndex s.
Proof.
  destruct e; simpl; try done; intros _.
  - unfold postComment. by destruct (routeSong s).
  - unfold togglePlay. destruct (negb _); [done|]. by destruct paused.
Qed.

Lemma dispatch_keeps_queue e s :
  startsOrSteps e = false →
  queue (dispatch e s) = queue s ∧ queueIndex (dispatch e s) = queueIndex s.
Proof.
  intros He. unfold dispatch.
  rewrite trackEffect_queue, trackEffect_queueIndex.
  by apply handle_keeps_queue.
Qed.

Lemma run_keeps_queue es s :
  Forall (λ e, startsOrSteps e = false) es →
  queue (run es s) = queue s ∧ queueIndex (run es s) = queueIndex s.
Proof.
  intros Hes. revert s. induction Hes as [|e es He _ IH]; intros s; [done|].
  unfold run in *. simpl. destruct (IH (dispatch e s)) as [-> ->].
  by apply dispatch_keeps_queue.
Qed.

(** C1. Queue snapshot stability: a change of the search text, the
    sort mode, the route (by navigation or by the location), the
    unlock flag or the like overlay leaves the queue and the cursor as
    they are, and so does every sequence of events none of which starts
    playback or steps; an event that alters the queue or the cursor is
    a playback initiation or a step. *)
Theorem queue_snapshot_stable (s : State) :
  let kept := λ e, queue (dispatch e s) = queue s
                   ∧ queueIndex (dispatch e s) = queueIndex s in
  (∀ q, kept (SetQuery q))
  ∧ (∀ m, kept (SetSortMode m))
  ∧ (∀ to, kept (Navigate to))
  ∧ (∀ hash, kept (HashChange hash))
  ∧ (∀ pw, kept (Unlock pw))
  ∧ (∀ i, kept (ToggleLike i))
  ∧ (∀ es, Forall (λ e, startsOrSteps e = false) es →
       queue (run es s) = queue s ∧ queueIndex (run es s) = queueIndex s)
  ∧ (∀ e, ¬ kept e → startsOrSteps e = true).
Proof.
  intros kept. unfold kept.
  repeat (split; [intros; by apply dispatch_keeps_queue|]).
  split; [intros es Hes; by apply run_keeps_queue|].
  intros e He. destruct (startsOrSteps e) eqn:Hs; [done|].
  destruct He. by apply dispatch_keeps_queue.
Qed.

(** The current song is resolved from the queue, the cursor and the
    catalog alone: search text, sort mode and route do not enter. *)
Lemma currentSong_stable s :
  (∀ q, currentSong (dispatch (SetQuery q) s) = currentSong s)
  ∧ (∀ m, currentSong (dispatch (SetSortMode m) s) = currentSong s)
  ∧ (∀ to, currentSong (dispatch (Navigate to) s) = currentSong s).
Proof.
  split_and!; intros; unfold dispatch; by rewrite trackEffect_currentSong.
Qed.

(** *** Starting playback *)

Lemma elem_of_ids (l : list Song) (x : Song) : x ∈ l → id x ∈ map id l.
Proof. intros. apply list_elem_of_fmap. eauto. Qed.

Lemma playBySong_absent song s :
  id song ∉ map id (visible s) → playBySong song s = s.
Proof.
  intros H%indexOf_absent. unfold playBySong. by rewrite decide_True.
Qed.

Lemma playBySong_present song s :
  id song ∈ map id (visible s) →
  queue (playBySong song s) = map id (visible s)
  ∧ queueIndex (playBySong song s)
    = Some (indexOf (map id (visible s)) (id song))
  ∧ isPlaying (playBySong song s) = true
  ∧ alerts (playBySong song s) = alerts s
  ∧ store (playBySong song s) = store s
  ∧ prevIdRef (playBySong song s) = prevIdRef s.
Proof.
  intros H. unfold playBySong. rewrite decide_False.
  - by destruct (negb _).
  - by rewrite indexOf_absent; intros [].
Qed.

(** C4. [playBySong]: a song whose identifier is not in the current
    visible list leaves the state as it is, also when the catalog
    holds the song; for a song in the visible list the queue becomes
    the identifiers of the visible list, the cursor the first position
    of the song's identifier in it, and playing becomes true. *)
Theorem playBySong_spec (song : Song) (s : State) :
  let ids := map id (visible s) in
  let s' := playBySong song s in
  (id song ∉ ids →
     s' = s ∧ queue s' = queue s ∧ queueIndex s' = queueIndex s
     ∧ isPlaying s' = isPlaying s)
  ∧ (id song ∈ ids →
     queue s' = ids
     ∧ isPlaying s' = true
     ∧ ∃ n : nat,
         queueIndex s' = Some (Z.of_nat n)
         ∧ ids !! n = Some (id song)
         ∧ ∀ m y, (m < n)%nat → ids !! m = Some y → y ≠ id song).
Proof.
  intros ids s'. split.
  - intros H. unfold s'. by rewrite playBySong_absent.
  - intros H. destruct (playBySong_present song s H) as (Hq & Hi & Hp & _).
    split_and!; [done..|].
    destruct (indexOf_spec ids (id song)) as [[_ ?]|(n & Hn & ?)]; [done|].
    exists n. unfold s'. rewrite Hi. fold ids. by rewrite Hn.
Qed.

(** In the running program the render that follows changes nothing
    either: the whole event is a no-op. *)
Lemma dispatch_PlaySong_absent song s :
  synced s → id song ∉ map id (visible s) → dispatch (PlaySong song) s = s.
Proof.
  intros Hs Hn. unfold dispatch. simpl.
  rewrite playBySong_absent by done. by apply trackEffect_id.
Qed.

Lemma playAllVisible_present s :
  visible s ≠ [] →
  queue (playAllVisible s) = map id (visible s)
  ∧ queueIndex (playAllVisible s) = Some 0
  ∧ isPlaying (playAllVisible s) = true.
Proof.
  intros H. unfold playAllVisible.
  destruct (visible s) as [|x l] eqn:Hv; [done|].
  destruct (_ ≫= _); [|done]. by destruct (negb _).
Qed.

Lemma playAllVisible_empty s : visible s = [] → playAllVisible s = s.
Proof. unfold playAllVisible. by intros ->. Qed.

(** C9. [playAllVisible]: with an empty visible list nothing changes;
    otherwise the queue becomes the identifiers of the visible list,
    the cursor 0 and playing true. *)
Theorem playAllVisible_spec (s : State) :
  let s' := playAllVisible s in
  (visible s = [] →
     s' = s ∧ queue s' = queue s ∧ queueIndex s' = queueIndex s)
  ∧ (visible s ≠ [] →
     queue s' = map id (visible s) ∧ queueIndex s' = Some 0
     ∧ isPlaying s' = true).
Proof.
  intros s'. unfold s', playAllVisible. split.
  - by intros ->.
  - intros H. destruct (visible s) as [|x l] eqn:Hv; [done|].
    destruct (_ ≫= _); [|done]. by destruct (negb _).
Qed.

(** *** Stepping *)

Lemma stepQueue_queue dir s : queue (stepQueue dir s) = queue s.
Proof. unfold stepQueue. by destruct (queue s) eqn:E, (queueIndex s). Qed.

Lemma stepQueue_noop dir s :
  queue s = [] ∨ queueIndex s = None → stepQueue dir s = s.
Proof.
  unfold stepQueue. intros [->| ->]; [done|]. by destruct (queue s).
Qed.

Lemma stepQueue_index dir s i :
  queue s ≠ [] → queueIndex s = Some i →
  let n := Z.of_nat (length (queue s)) in
  queueIndex (stepQueue dir s) = Some ((i + dir + n) `rem` n).
Proof.
  intros Hq Hi. unfold stepQueue. rewrite Hi.
  by destruct (queue s) eqn:E.
Qed.

Lemma wrap_unit i dir n :
  0 ≤ i < n → dir = 1 ∨ dir = -1 →
  (i + dir + n) `rem` n = (i + dir) `mod` n ∧ 0 ≤ (i + dir) `mod` n < n.
Proof.
  intros Hi Hd. split.
  - rewrite Z.rem_mod_nonneg by lia.
    rewrite <- (Z.mul_1_l n) at 1. by rewrite Z.mod_add by lia.
  - apply Z.mod_pos_bound. lia.
Qed.

Lemma cursorInBounds_stepQueue dir s :
  dir = 1 ∨ dir = -1 → cursorInBounds s → cursorInBounds (stepQueue dir s).
Proof.
  intros Hd Hs. unfold cursorInBounds in *.
  destruct (queueIndex s) as [i|] eqn:Hi.
  - destruct (decide (queue s = [])) as [He|He].
    + rewrite stepQueue_noop by auto. by rewrite Hi.
    + rewrite (stepQueue_index dir s i), stepQueue_queue by done.
      rewrite (proj1 (wrap_unit _ _ _ Hs Hd)). by apply wrap_unit.
  - rewrite stepQueue_noop by auto. by rewrite Hi.
Qed.

Lemma cursorInBounds_handle e s :
  cursorInBounds s → cursorInBounds (handle e s).
Proof.
  intros Hs. destruct (startsOrSteps e) eqn:He.
  - destruct e; try done; simpl.
    + destruct (decide (id song ∈ map id (visible s))) as [Hin|Hin].
      * destruct (playBySong_present song s Hin) as (Hq & Hi & _).
        unfold cursorInBounds. rewrite Hq, Hi.
        destruct (indexOf_spec (map id (visible s)) (id song))
          as [[_ ?]|(n & -> & Hn%lookup_lt_Some & _)]; [done|lia].
      * by rewrite playBySong_absent.
    + destruct (decide (visible s = [])) as [Hv|Hv].
      * by rewrite playAllVisible_empty.
      * destruct (playAllVisible_present s Hv) as (Hq & Hi & _).
        unfold cursorInBounds. rewrite Hq, Hi, length_map.
        destruct (visible s); [done|simpl; lia].
    + apply cursorInBounds_stepQueue; auto.
    + apply cursorInBounds_stepQueue; auto.
    + apply cursorInBounds_stepQueue; auto.
  - unfold cursorInBounds. by destruct (handle_keeps_queue e s He) as [-> ->].
Qed.

Lemma cursorInBounds_trackEffect s :
  cursorInBounds s → cursorInBounds (trackEffect s).
Proof.
  unfold cursorInBounds. by rewrite trackEffect_queue, trackEffect_queueIndex.
Qed.

(** Every state of the running program has its cursor in bounds and
    its refs in step with the current song. *)
Lemma reachable_invariant s : reachable s → cursorInBounds s ∧ synced s.
Proof.
  induction 1 as [d hash|e s _ [IH _]].
  - split; [|apply trackEffect_synced].
    apply cursorInBounds_trackEffect. unfold cursorInBounds, readHash. simpl. done.
  - split; [|apply trackEffect_synced].
    by apply cursorInBounds_trackEffect, cursorInBounds_handle.
Qed.

(** C3. [stepQueue]: with an empty queue or an absent cursor nothing
    changes; otherwise, for a direction of plus or minus one, the new
    cursor is the old one plus the direction modulo the length of the
    queue, wrapping at both ends; the queue is as before and the
    cursor stays in bounds. *)
Theorem stepQueue_spec (s : State) (dir : Z) :
  reachable s → dir = 1 ∨ dir = -1 →
  let s' := stepQueue dir s in
  let n := Z.of_nat (length (queue s)) in
  queue s' = queue s
  ∧ cursorInBounds s'
  ∧ (queue s = [] ∨ queueIndex s = None → s' = s)
  ∧ (∀ i, queue s ≠ [] → queueIndex s = Some i →
       queueIndex s' = Some ((i + dir) `mod` n)
       ∧ 0 ≤ (i + dir) `mod` n < n
       ∧ (dir = 1 → i = n - 1 → queueIndex s' = Some 0)
       ∧ (dir = -1 → i = 0 → queueIndex s' = Some (n - 1))).
Proof.
  intros [Hb _]%reachable_invariant Hd s' n.
  split_and!.
  - apply stepQueue_queue.
  - by apply cursorInBounds_stepQueue.
  - apply stepQueue_noop.
  - intros i Hq Hi. unfold cursorInBounds in Hb. rewrite Hi in Hb. fold n in Hb.
    destruct (wrap_unit i dir n Hb Hd) as [Hr Hm].
    assert (queueIndex s' = Some ((i + dir) `mod` n)) as Hs'.
    { unfold s'. rewrite (stepQueue_index dir s i) by done. fold n.
      by rewrite Hr. }
    split; [done|]. split; [done|]. split.
    + intros -> ->. rewrite Hs'. f_equal.
      replace (n - 1 + 1) with (1 * n) by lia. by rewrite Z.mod_mul by lia.
    + intros -> ->. rewrite Hs'. f_equal.
      replace (0 + -1) with (n - 1 + -1 * n) by lia.
      rewrite Z.mod_add by lia. apply Z.mod_small. lia.
Qed.

(** *** A song without audio *)

Lemma synced_alert msg s : synced s → synced (alert msg s).
Proof. done. Qed.

Lemma togglePlay_no_audio paused s :
  hasAudio s = false → togglePlay paused s = alert NO_AUDIO s.
Proof. intros H. unfold togglePlay. by rewrite H. Qed.

Lemma trackEffect_forces_pause s x :
  currentSong s = Some x → audioUrl x = "" → prevIdRef s ≠ Some (id x) →
  isPlaying (trackEffect s) = false.
Proof.
  intros Hc Hu Hp. unfold trackEffect. rewrite Hc. simpl. rewrite Hu.
  rewrite decide_True; [done|]. left. congruence.
Qed.

(** C5 (as amended). For a song whose audio source is empty: the
    play/pause toggle of the MiniPlayer raises the notice and leaves
    the queue, the cursor and the playing flag as they are; starting
    playback of it with [playBySong] raises no notice and sets the
    queue and the cursor as for any visible song, and when the track
    changes to it the player forces playing to false. *)
Theorem missing_audio_semantics (s : State) :
  reachable s →
  (hasAudio s = false → ∀ paused,
     let s' := dispatch (TogglePlay paused) s in
     alerts s' = NO_AUDIO :: alerts s
     ∧ queue s' = queue s ∧ queueIndex s' = queueIndex s
     ∧ isPlaying s' = isPlaying s)
  ∧ (∀ song, id song ∈ map id (visible s) →
     let s' := dispatch (PlaySong song) s in
     alerts s' = alerts s
     ∧ queue s' = map id (visible s)
     ∧ queueIndex s' = Some (indexOf (map id (visible s)) (id song))
     ∧ ∀ x, currentSong s' = Some x → audioUrl x = "" →
            id <$> currentSong s ≠ Some (id x) → isPlaying s' = false).
Proof.
  intros [_ Hsync]%reachable_invariant. split.
  - intros Hno paused s'. unfold s', dispatch. simpl.
    rewrite (togglePlay_no_audio _ _ Hno).
    by rewrite trackEffect_id by by apply synced_alert.
  - intros song Hin s'. unfold s', dispatch. simpl.
    destruct (playBySong_present song s Hin) as (Hq & Hi & _ & Ha & _ & Hp).
    rewrite trackEffect_alerts, trackEffect_queue, trackEffect_queueIndex.
    split_and!; [done..|].
    intros x Hx Hu Hne. rewrite trackEffect_currentSong in Hx.
    eapply trackEffect_forces_pause; [done..|].
    rewrite Hp. by rewrite (proj1 Hsync).
Qed.

End player_facts.
End Player.

(** ** Bulk import *)
Module Import_.
Import DataPage.

Lemma prop_non_object parsed k : isObject parsed = false → prop parsed k = None.
Proof. by destruct parsed. Qed.

(** A payload that is not an object changes no slice. *)
Lemma onImportFile_slices parsed s :
  isObject parsed = false →
  slices (onImportFile (File (Some parsed)) s) = slices s.
Proof.
  intros H. unfold onImportFile. destruct (_ || _); [done|]. simpl.
  unfold importSortMode, importPrivateUnlocked, importGuestbook,
    importComments, importLiked, importSongs.
  by rewrite !prop_non_object.
Qed.

(** C6 (the code at the failing input). A payload whose top level is
    an array gets past the guard of the import: no slice changes, but
    the status reports that the import is complete, not that it
    failed.  Unparsable text, [null], a boolean, a number or a string
    at the top level do fail the import, with no slice changed. *)
Theorem import_array_reports_complete (s : State) :
  let failed := λ u, slices (onImportFile u s) = slices s
                     ∧ status (onImportFile u s) = IMPORT_FAILED in
  (∀ items,
     let s' := onImportFile (File (Some (JArray items))) s in
     slices s' = slices s ∧ status s' = IMPORT_COMPLETE
     ∧ status s' ≠ IMPORT_FAILED)
  ∧ failed (File None)
  ∧ failed (File (Some JNull))
  ∧ (∀ b, failed (File (Some (JBool b))))
  ∧ (∀ n, failed (File (Some (JNumber n))))
  ∧ (∀ x, failed (File (Some (JString x)))).
Proof.
  intros failed. split.
  - intros items s'. unfold s'.
    split; [by apply onImportFile_slices|done].
  - unfold failed, onImportFile. split_and!; intros; simpl;
      by rewrite ?orb_true_r.
Qed.

End Import_.

(** ** The seeded program on the concrete host *)
Module Scenarios.
Import IsoHost IsoHostFacts JsArray.

Ltac in_list :=
  vm_compute;
  repeat first [apply list_elem_of_here | apply list_elem_of_further].

Lemma reachable_run es s : App.reachable s → App.reachable (App.run es s).
Proof.
  revert s. induction es as [|e es IH]; intros s Hs; [done|].
  apply IH. by constructor.
Qed.

Lemma seed_times s :
  s ∈ SEED_SONGS →
  getTime (releaseDate s) = Some (default 0 (isoTime (releaseDate s))).
Proof.
  unfold SEED_SONGS. rewrite !elem_of_cons, elem_of_nil.
  by intros [->|[->|[->|[]]]].
Qed.

Lemma seed_plain s : s ∈ SEED_SONGS → Plain.plainSong s.
Proof.
  unfold SEED_SONGS. rewrite !elem_of_cons, elem_of_nil.
  intros [->|[->|[->|[]]]]; by vm_compute.
Qed.

Lemma seed_likes s : s ∈ SEED_SONGS → Plain.safeLikes s.
Proof.
  unfold SEED_SONGS. rewrite !elem_of_cons, elem_of_nil.
  intros [->|[->|[->|[]]]]; by vm_compute.
Qed.

(** Playback of "Be Good" started from the unlocked private page, which
    lists the three seeded songs. *)
Lemma queue_snapshot_stable_witness :
  let s1 := App.run [App.Unlock "family"; App.PlaySong BE_GOOD]
              (App.mount defaults "#/private") in
  let s2 := App.run [App.SetQuery "sunset"; App.SetSortMode "az";
                     App.Navigate "/private"; App.ToggleLike 3; App.Unlock ""]
              s1 in
  (App.queue s1 = [2; 1; 3] ∧ App.queueIndex s1 = Some 1)
  ∧ map id (App.visible s1) = [2; 1]
  ∧ (App.queue s2 = App.queue s1 ∧ App.queueIndex s2 = App.queueIndex s1).
Proof.
  intros s1 s2. split; [by vm_compute|]. split; [by vm_compute|].
  apply (Player.queue_snapshot_stable s1). by repeat constructor.
Defined.

Lemma visibility_gating_witness :
  (∀ s, s ∈ visibleSongs SEED_SONGS "" "/music" true "newest" ∅ →
        visibility s = "public" ∧ s ∈ SEED_SONGS)
  ∧ visibleSongs SEED_SONGS "rock" "/private" false "az" ∅ = []
  ∧ SUNSET_HEARTBREAK ∈ visibleSongs SEED_SONGS "" "/private" true "liked" ∅.
Proof.
  split_and!.
  - by apply (View.visibility_gating SEED_SONGS "" "/music" true "newest" ∅).
  - by apply (View.visibility_gating SEED_SONGS "rock" "/private" false "az" ∅).
  - apply (View.visibility_gating SEED_SONGS "" "/private" true "liked" ∅);
      [done..| |]; in_list.
Defined.


Lemma ordering_by_mode_witness :
  let out := λ m, visibleSongs SEED_SONGS "" "/private" true m ∅ in
  let w := λ s : Song,
    likes s + (if decide ((∅ : gmap Z bool) !! id s = Some true) then 1 else 0) in
  StronglySorted
    (λ a b, default 0 (isoTime (releaseDate b))
            ≤ default 0 (isoTime (releaseDate a))) (out "newest")
  ∧ StronglySorted (λ a b, w b ≤ w a) (out "liked")
  ∧ StronglySorted (λ a b, localeCompare (title a) (title b) ≤ 0) (out "az")
  ∧ out "shuffle" = out "newest".
Proof.
  intros out w.
  pose proof (View.ordering_by_mode SEED_SONGS "" "/private" true ∅
                (λ s, default 0 (isoTime (releaseDate s))))
    as (Hnew & Hliked & Haz & Hother).
  split_and!.
  - by apply Hnew, seed_times.
  - by apply Hliked, seed_likes.
  - by apply Haz, laws.
  - by apply Hother.
Defined.

Lemma playBySong_spec_witness :
  let s0 := App.mount defaults "#/music" in
  App.playBySong SUNSET_HEARTBREAK s0 = s0
  ∧ App.queue (App.playBySong BE_GOOD s0) = [2; 1]
  ∧ App.isPlaying (App.playBySong BE_GOOD s0) = true.
Proof.
  intros s0.
  destruct (Player.playBySong_spec SUNSET_HEARTBREAK s0) as [Habs _].
  destruct (Player.playBySong_spec BE_GOOD s0) as [_ Hpres].
  split_and!.
  - apply Habs.
    replace (map id (App.visible s0)) with [2; 1] by (by vm_compute).
    rewrite !not_elem_of_cons. split_and!; [done..|apply not_elem_of_nil].
  - by apply Hpres; in_list.
  - by apply Hpres; in_list.
Defined.

Lemma playAllVisible_spec_witness :
  let locked := App.mount defaults "#/private" in
  let music := App.mount defaults "#/music" in
  App.playAllVisible locked = locked
  ∧ App.queue (App.playAllVisible music) = [2; 1]
  ∧ App.queueIndex (App.playAllVisible music) = Some 0.
Proof.
  intros locked music.
  destruct (Player.playAllVisible_spec locked) as [Hempty _].
  destruct (Player.playAllVisible_spec music) as [_ Hfull].
  split; [by apply Hempty|].
  assert (App.visible music ≠ []) as Hne by (by vm_compute).
  destruct (Hfull Hne) as (Hq & Hi & _). by rewrite Hq.
Defined.

Lemma stepQueue_spec_witness :
  let s1 := App.run [App.Unlock "family"; App.PlaySong BE_GOOD; App.StepNext]
              (App.mount defaults "#/private") in
  (App.queue s1 = [2; 1; 3] ∧ App.queueIndex s1 = Some 2)
  ∧ App.queueIndex (App.stepQueue 1 s1) = Some 0
  ∧ App.queue (App.stepQueue 1 s1) = App.queue s1.
Proof.
  intros s1. split; [by vm_compute|].
  assert (App.reachable s1) as Hr by (apply reachable_run; constructor).
  destruct (Player.stepQueue_spec s1 1 Hr (or_introl eq_refl))
    as (Hq & _ & _ & Hstep).
  split; [|done].
  by apply (Hstep 2).
Defined.

Lemma missing_audio_semantics_witness :
  let s1 := App.run [App.PlaySong BE_GOOD] (App.mount defaults "#/music") in
  App.alerts (App.dispatch (App.TogglePlay true) s1) = [NO_AUDIO]
  ∧ App.queue (App.dispatch (App.TogglePlay true) s1) = [2; 1]
  ∧ App.isPlaying (App.dispatch (App.PlaySong DIMINISHED) s1) = false.
Proof.
  intros s1.
  assert (App.reachable s1) as Hr by (apply reachable_run; constructor).
  destruct (Player.missing_audio_semantics s1 Hr) as [Htoggle Hplay].
  split_and!.
  - by apply Htoggle.
  - by apply Htoggle.
  - by eapply (Hplay DIMINISHED); [in_list|..].
Defined.

(** C5 (as stated) fails.  Playing a visible song without audio from
    the music page raises no notice and replaces the queue and the
    cursor; and the toggle, pressed while such a song shows as playing,
    raises the notice but leaves playing true. *)
Lemma missing_audio_counterexample :
  let s0 := App.mount defaults "#/music" in
  let s1 := App.dispatch (App.PlaySong BE_GOOD) s0 in
  let s2 := App.run [App.PlaySong BE_GOOD; App.PlaySong BE_GOOD] s0 in
  let s3 := App.dispatch (App.TogglePlay true) s2 in
  BE_GOOD ∈ App.visible s0 ∧ audioUrl BE_GOOD = ""
  ∧ App.alerts s1 = App.alerts s0
  ∧ App.queue s1 ≠ App.queue s0
  ∧ App.queueIndex s1 ≠ App.queueIndex s0
  ∧ App.currentSong s2 = Some BE_GOOD
  ∧ App.alerts s3 = [NO_AUDIO]
  ∧ App.isPlaying s3 = true
  ∧ ¬ (∀ (s : App.State) (x : Song),
         x ∈ App.visible s → audioUrl x = "" →
         let s' := App.dispatch (App.PlaySong x) s in
         App.alerts s' = NO_AUDIO :: App.alerts s ∧ App.isPlaying s' = false
         ∧ App.queueIndex s' = App.queueIndex s ∧ App.queue s' = App.queue s).
Proof.
  intros s0 s1 s2 s3.
  assert (BE_GOOD ∈ App.visible s0) as Hv by in_list.
  split_and!; try done.
  intros H. by destruct (H s0 BE_GOOD Hv eq_refl) as (? & _).
Qed.

(** Stepping back from the first song of the queue wraps to the last. *)
Example step_back_wraps :
  let s1 := App.run [App.Unlock "family"; App.PlaySong DIMINISHED]
              (App.mount defaults "#/private") in
  App.queue s1 = [2; 1; 3] ∧ App.queueIndex s1 = Some 0
  ∧ App.queueIndex (App.dispatch App.StepPrev s1) = Some 2
  ∧ (id <$> App.currentSong (App.dispatch App.StepPrev s1)) = Some 3.
Proof. by vm_compute. Qed.

(** C6: the failing input, an empty array. *)
Example import_empty_array (s : DataPage.State) :
  DataPage.status (DataPage.onImportFile
                     (DataPage.File (Some (DataPage.JArray []))) s)
  = "Import complete.".
Proof. done. Qed.

(** C10 (the code at the failing input). "Be Good" is started from the
    music page, which lists it second under [newest]; the sort mode
    then changes to [az], or the search text to "good".  The queue of
    [App] still resolves to "Be Good".  The index of [LiveIndex] now
    points at another song of the reordered list, or past the end of
    the filtered list. *)
Theorem play_then_filter_diverges :
  let a1 := App.dispatch (App.PlaySong BE_GOOD) (App.mount defaults "#/music") in
  let l1 := LiveIndex.dispatch (LiveIndex.PlaySong BE_GOOD)
              (LiveIndex.mount defaults "#/music") in
  (App.currentSong a1 = Some BE_GOOD
   ∧ App.currentSong (App.dispatch (App.SetSortMode "az") a1) = Some BE_GOOD
   ∧ App.currentSong (App.dispatch (App.SetQuery "good") a1) = Some BE_GOOD)
  ∧ (LiveIndex.song l1 = Some BE_GOOD
     ∧ LiveIndex.song (LiveIndex.dispatch (LiveIndex.SetSortMode "az") l1)
       = Some DIMINISHED
     ∧ LiveIndex.song (LiveIndex.dispatch (LiveIndex.SetQuery "good") l1)
       = None).
Proof. by vm_compute. Qed.

End Scenarios.

(** * Further properties of the code *)

(** ** More on the visible songs *)
Module Listing.
Import JsString JsArray JsArrayFacts Shape Normalise Plain CaseFold.

Lemma insert_fmap {A B} (f : A → B) (c : B → B → option Z)
    (c' : A → A → option Z) x l :
  (∀ a b, c (f a) (f b) = c' a b) →
  insert c (f x) (f <$> l) = f <$> insert c' x l.
Proof.
  intros H. induction l as [|y l IH]; simpl; [done|].
  unfold sortCompare. rewrite H.
  case_decide; simpl; [done|]. f_equal. apply IH.
Qed.

(** Sorting commutes with a map that the comparator does not see. *)
Lemma sort_fmap {A B} (f : A → B) (c : B → B → option Z)
    (c' : A → A → option Z) l :
  (∀ a b, c (f a) (f b) = c' a b) →
  sort c (f <$> l) = f <$> sort c' l.
Proof.
  intros H. induction l as [|x l IH]; [done|].
  change (sort c (f <$> x :: l)) with (insert c (f x) (sort c (f <$> l))).
  rewrite IH. exact (insert_fmap f c c' x (sort c' l) H).
Qed.

Section listing.
Context {host : Host}.

Lemma visibleSongs_query_eq songs q q' path unlocked mode liked :
  toLowerCase (trim q) = toLowerCase (trim q') →
  visibleSongs songs q path unlocked mode liked
  = visibleSongs songs q' path unlocked mode liked.
Proof. intros H. unfold visibleSongs, textFilter. by rewrite H. Qed.

(** X1. The search text is read up to the case of its letters and up
    to blanks around it: for an ASCII text over songs with ASCII
    title, genre and moods, padding it with blanks on either side, or
    changing the case of some of its letters, gives the same list. *)
Theorem query_normalised songs q path unlocked mode liked :
  let out := λ text, visibleSongs songs text path unlocked mode liked in
  asciiOnly q = true →
  (∀ s, s ∈ songs → plainSong s) →
  (∀ pre post, all_white pre = true → all_white post = true →
     out (pre +:+ q +:+ post) = out q)
  ∧ (∀ q', ciEq q q' → out q' = out q).
Proof.
  intros out _ _. unfold out. split.
  - intros pre post Hpre Hpost. apply visibleSongs_query_eq.
    by rewrite trim_pad.
  - intros q' Hq%toLowerCase_eq. apply visibleSongs_query_eq.
    by rewrite <- !trim_lower, Hq.
Qed.

Lemma gate_fmap_patch i url songs path unlocked :
  gate (patchAudio i url <$> songs) path unlocked
  = patchAudio i url <$> gate songs path unlocked.
Proof.
  unfold gate. case_decide; [|by destruct unlocked].
  induction songs as [|x l IH]; [done|].
  rewrite fmap_cons, !filter_cons, IH.
  assert (visibility (patchAudio i url x) = visibility x) as ->
    by (unfold patchAudio; by case_decide).
  by case_decide.
Qed.

Lemma matches_patch q i url x : matches q (patchAudio i url x) = matches q x.
Proof. unfold patchAudio. by case_decide. Qed.

Lemma textFilter_fmap_patch i url query base :
  textFilter query (patchAudio i url <$> base)
  = patchAudio i url <$> textFilter query base.
Proof.
  unfold textFilter. destruct (truthy _); [|done].
  induction base as [|x l IH]; [done|].
  rewrite fmap_cons, !filter_cons, IH, matches_patch.
  by case_decide.
Qed.

Lemma comparator_patch mode liked i url a b :
  comparator mode liked (patchAudio i url a) (patchAudio i url b)
  = comparator mode liked a b.
Proof.
  unfold comparator, patchAudio.
  repeat case_decide; done.
Qed.

(** X2. Attaching audio leaves the listing alone: the visible list
    after [updateSong] is the old visible list with the audio source
    of the songs of that identifier replaced, in the same order and
    with the same identifiers and slugs. *)
Theorem updateSong_keeps_listing (i : Z) (url : string) (s : App.State) :
  let s' := App.updateSong i url s in
  App.visible s' = patchAudio i url <$> App.visible s
  ∧ map id (App.visible s') = map id (App.visible s)
  ∧ map slug (App.visible s') = map slug (App.visible s)
  ∧ map id (songs (App.store s')) = map id (songs (App.store s))
  ∧ map slug (songs (App.store s')) = map slug (songs (App.store s))
  ∧ (∀ x, x ∈ songs (App.store s') →
       (id x = i → audioUrl x = url) ∧ (id x ≠ i → x ∈ songs (App.store s)))
  ∧ App.queue s' = App.queue s ∧ App.queueIndex s' = App.queueIndex s.
Proof.
  intros s'.
  assert (∀ l : list Song, map id (patchAudio i url <$> l) = map id l) as Hid.
  { intros l. rewrite <- list_fmap_compose. apply list_fmap_ext.
    intros ? x _. simpl. unfold patchAudio. by case_decide. }
  assert (∀ l : list Song, map slug (patchAudio i url <$> l) = map slug l) as Hslug.
  { intros l. rewrite <- list_fmap_compose. apply list_fmap_ext.
    intros ? x _. simpl. unfold patchAudio. by case_decide. }
  assert (App.visible s' = patchAudio i url <$> App.visible s) as Hv.
  { unfold s', App.visible, App.updateSong, visibleSongs. simpl.
    change (map (λ x, if decide (id x = i) then withAudioUrl url x else x))
      with (fmap (M:=list) (patchAudio i url)).
    rewrite gate_fmap_patch, textFilter_fmap_patch.
    apply sort_fmap. intros. apply comparator_patch. }
  split; [done|]. rewrite Hv, Hid, Hslug.
  split; [done|]. split; [done|].
  unfold s', App.updateSong. simpl.
  change (map (λ x, if decide (id x = i) then withAudioUrl url x else x))
    with (fmap (M:=list) (patchAudio i url)).
  rewrite Hid, Hslug. split_and!; try done.
  intros x (y & -> & Hy)%list_elem_of_fmap. unfold patchAudio.
  case_decide; simpl; split; intros; done.
Qed.

End listing.
End Listing.

(** ** More on the playback queue *)
Module Playback.
Import JsString JsArray JsArrayFacts App Shape.

Lemma findById_Some l i y :
  findById l i = Some y → id y = i ∧ y ∈ l.
Proof.
  unfold findById. destruct (list_find _ l) as [[n x]|] eqn:H; [|done].
  simpl. intros [= <-]. apply list_find_Some in H as (Hl & Hx & _).
  split; [done|]. by eapply list_elem_of_lookup_2.
Qed.

Lemma findById_is_Some l i : i ∈ map id l → is_Some (findById l i).
Proof.
  intros (x & -> & Hx)%list_elem_of_fmap. unfold findById.
  destruct (list_find_elem_of (λ y, id y = id x) l x Hx eq_refl) as [[n y] ->].
  by eexists.
Qed.

Lemma findById_patch l i j url :
  findById (patchAudio i url <$> l) j = patchAudio i url <$> findById l j.
Proof.
  unfold findById. rewrite list_find_fmap.
  rewrite (list_find_ext _ (λ x, id x = j)).
  - by destruct (list_find _ l) as [[]|].
  - intros x. simpl. unfold patchAudio. by case_decide.
Qed.

Lemma fmap_inj_on {A B} (f : A → B) (l : list A) x y :
  NoDup (f <$> l) → x ∈ l → y ∈ l → f x = f y → x = y.
Proof.
  induction l as [|z l IH]; [by intros _ ?%elem_of_nil|].
  rewrite fmap_cons, NoDup_cons.
  intros [Hz Hl] [->|Hx]%elem_of_cons [->|Hy]%elem_of_cons Hf; [done|..].
  - destruct Hz. rewrite Hf. apply list_elem_of_fmap. eauto.
  - destruct Hz. rewrite <- Hf. apply list_elem_of_fmap. eauto.
  - by apply IH.
Qed.

Lemma at_index_of_nat {A} (l : list A) (n : nat) :
  at_index l (Z.of_nat n) = l !! n.
Proof. unfold at_index. rewrite decide_True by lia. by rewrite Nat2Z.id. Qed.

Lemma isSongPath_app g : isSongPath ("/song/" +:+ g) = true.
Proof. reflexivity. Qed.

Lemma substring_all g : String.substring 0 (String.length g) g = g.
Proof. induction g as [|c g IH]; simpl; [done|]. by rewrite IH. Qed.

Lemma slug_of_song_path g :
  String.substring 6 (String.length ("/song/" +:+ g) - 6) ("/song/" +:+ g) = g.
Proof. simpl. rewrite Nat.sub_0_r. apply substring_all. Qed.

Section playback.
Context {host : Host}.

Lemma visible_subseteq s x : x ∈ visible s → x ∈ songs (store s).
Proof.
  intros H%View.elem_of_visibleSongs.
  by eapply View.gate_subseteq, View.textFilter_subseteq.
Qed.

Lemma gate_sublist l p u : gate l p u `sublist_of` l.
Proof.
  unfold gate. case_decide; [apply sublist_filter|].
  destruct (negb u); [apply sublist_nil_l|reflexivity].
Qed.

Lemma textFilter_sublist q l : textFilter q l `sublist_of` l.
Proof.
  unfold textFilter. destruct (truthy _); [apply sublist_filter|reflexivity].
Qed.

(** The visible list is a rearrangement of a sublist of the catalog. *)
Lemma visible_sublist s :
  ∃ l, l `sublist_of` songs (store s) ∧ visible s ≡ₚ l.
Proof.
  eexists. split; [|apply View.visibleSongs_Permutation].
  etrans; [apply textFilter_sublist|apply gate_sublist].
Qed.

Lemma visible_ids_NoDup s :
  NoDup (map id (songs (store s))) → NoDup (map id (visible s)).
Proof.
  intros Hn. destruct (visible_sublist s) as (l & Hl & Hp).
  change (NoDup (id <$> visible s)). rewrite Hp.
  eapply sublist_NoDup; [exact Hn|]. by apply fmap_sublist.
Qed.

Lemma currentSong_of s q i d :
  queue s = q → queueIndex s = Some i → store s = d →
  currentSong s = at_index q i ≫= findById (songs d).
Proof.
  intros <- Hi <-. unfold currentSong. rewrite Hi. simpl.
  by destruct (at_index _ _).
Qed.

(** X3. A successful [playBySong] makes a catalog song with the
    requested identifier the current song; when the identifiers of
    the catalog are unique and the song is in the catalog, it is the
    requested song itself. *)
Theorem play_resolves_requested (song : Song) (s : State) :
  id song ∈ map id (visible s) →
  let s' := playBySong song s in
  (∃ y, currentSong s' = Some y ∧ id y = id song ∧ y ∈ songs (store s))
  ∧ (NoDup (map id (songs (store s))) → song ∈ songs (store s) →
     currentSong s' = Some song).
Proof.
  intros Hin s'.
  destruct (Player.playBySong_present song s Hin) as (Hq & Hi & _ & _ & Hst & _).
  assert (currentSong s' = findById (songs (store s)) (id song)) as Hc.
  { rewrite (currentSong_of s' _ _ _ Hq Hi Hst).
    destruct (indexOf_spec (map id (visible s)) (id song))
      as [[_ ?]|(n & -> & Hn & _)]; [done|].
    by rewrite at_index_of_nat, Hn. }
  assert (id song ∈ map id (songs (store s))) as Hcat.
  { apply list_elem_of_fmap in Hin as (v & Hv & Hvis).
    apply list_elem_of_fmap. exists v. split; [done|].
    by apply visible_subseteq. }
  destruct (findById_is_Some _ _ Hcat) as [y Hy].
  destruct (findById_Some _ _ _ Hy) as [Hid Hmem].
  split.
  - exists y. by rewrite Hc.
  - intros Hnd Hsong. rewrite Hc, Hy. f_equal.
    by eapply (fmap_inj_on id).
Qed.

(** X4. A successful [playBySong] ends on a song detail route: the
    path is kept when it already is one and is the detail path of the
    song otherwise, in which case the route resolves to a catalog song
    of that slug (the song itself when slugs are unique). *)
Theorem play_navigates (song : Song) (s : State) :
  id song ∈ map id (visible s) →
  let s' := playBySong song s in
  isSongPath (path s') = true
  ∧ (isSongPath (path s) = true → path s' = path s)
  ∧ (isSongPath (path s) = false →
     path s' = "/song/" +:+ slug song
     ∧ routeSong s' = findBySlug (songs (store s)) (slug song)
     ∧ (NoDup (map slug (songs (store s))) → song ∈ songs (store s) →
        routeSong s' = Some song)).
Proof.
  intros Hin s'. unfold s', playBySong.
  rewrite decide_False by (by rewrite indexOf_absent; intros []).
  destruct (isSongPath (path s)) eqn:Hp; simpl.
  - by rewrite Hp.
  - rewrite isSongPath_app.
    split; [done|]. split; [done|]. intros _. split; [done|].
    unfold routeSong. cbn [path navigate setPath].
    rewrite isSongPath_app, slug_of_song_path.
    cbn [store navigate setPath setIsPlaying setQueueIndex setQueue].
    split; [done|]. intros Hnd Hsong.
    unfold findBySlug.
    destruct (list_find_elem_of (λ y, slug y = slug song) _ song Hsong eq_refl)
      as [[n y] Hy].
    rewrite Hy. simpl. f_equal.
    apply list_find_Some in Hy as (Hl & Hs & _).
    eapply (fmap_inj_on slug); [done| |done..].
    by eapply list_elem_of_lookup_2.
Qed.

(** X5. What a snapshot can hold: every identifier queued by
    [playBySong] or [playAllVisible] is that of a catalog song let
    through by the gate - a public one off the private route, and on
    the private route only when unlocked - and unique catalog
    identifiers give a queue without duplicates. *)
Theorem queue_from_gate (s : State) :
  let ids := map id (visible s) in
  (∀ song, id song ∈ ids → queue (playBySong song s) = ids)
  ∧ (visible s ≠ [] → queue (playAllVisible s) = ids)
  ∧ (∀ i, i ∈ ids →
       ∃ x, x ∈ songs (store s) ∧ id x = i
            ∧ (path s ≠ "/private" → visibility x = "public")
            ∧ (path s = "/private" → privateUnlocked (store s) = true))
  ∧ (NoDup (map id (songs (store s))) → NoDup ids).
Proof.
  intros ids. split_and!.
  - intros song Hin. by destruct (Player.playBySong_present song s Hin).
  - intros Hne. by destruct (Player.playAllVisible_present s Hne).
  - intros i (x & -> & Hx)%list_elem_of_fmap. exists x.
    split; [by apply visible_subseteq|]. split; [done|].
    apply View.elem_of_visibleSongs, View.textFilter_subseteq in Hx.
    unfold gate in Hx. split.
    + intros Hp. rewrite decide_True in Hx by done.
      by apply list_elem_of_filter in Hx as [? _].
    + intros Hp. rewrite decide_False in Hx by (by intros []).
      destruct (privateUnlocked _); [done|]. by apply elem_of_nil in Hx.
  - apply visible_ids_NoDup.
Qed.

End playback.
End Playback.

(** ** Stepping through the queue *)
Module Stepping.
Import JsArray App Pages.

Lemma setQueueIndex_same s v : queueIndex s = v → setQueueIndex v s = s.
Proof. destruct s. simpl. by intros ->. Qed.

Lemma setQueueIndex_twice s v w :
  setQueueIndex v (setQueueIndex w s) = setQueueIndex v s.
Proof. done. Qed.

Lemma stepQueue_cursor dir s i :
  queue s ≠ [] → queueIndex s = Some i →
  stepQueue dir s
  = setQueueIndex
      (Some ((i + dir + Z.of_nat (length (queue s)))
             `rem` Z.of_nat (length (queue s)))) s.
Proof.
  intros Hq Hi. unfold stepQueue. rewrite Hi. by destruct (queue s) eqn:E.
Qed.

Section stepping.
Context {host : Host}.

(** In bounds, a step by [k] wraps like the sum modulo the length. *)
Lemma stepQueue_mod dir s i :
  cursorInBounds s → queueIndex s = Some i → dir = 1 ∨ dir = -1 →
  stepQueue dir s
  = setQueueIndex (Some ((i + dir) `mod` Z.of_nat (length (queue s)))) s.
Proof.
  intros Hb Hi Hd. unfold cursorInBounds in Hb. rewrite Hi in Hb.
  rewrite (stepQueue_cursor dir s i); [|by intros E; rewrite E in Hb; simpl in Hb; lia|done].
  by rewrite (proj1 (Player.wrap_unit _ _ _ Hb Hd)).
Qed.

(** X6. Previous and next undo each other: on any state of the
    running program, a step forward followed by a step back (or the
    reverse) gives the state back. *)
Theorem step_inverse (s : State) :
  reachable s →
  stepQueue (-1) (stepQueue 1 s) = s ∧ stepQueue 1 (stepQueue (-1) s) = s.
Proof.
  intros [Hb _]%Player.reachable_invariant.
  destruct (queueIndex s) as [i|] eqn:Hi.
  - assert (∀ d e, (d = 1 ∨ d = -1) → (e = 1 ∨ e = -1) → d + e = 0 →
                   stepQueue e (stepQueue d s) = s) as H.
    { intros d e Hd He Hde.
      pose proof Hb as Hb'. unfold cursorInBounds in Hb'. rewrite Hi in Hb'.
      rewrite (stepQueue_mod d s i) by done.
      rewrite (stepQueue_mod e _ ((i + d) `mod` Z.of_nat (length (queue s))));
        [|unfold cursorInBounds; simpl; apply Z.mod_pos_bound; lia|done..].
      simpl. rewrite setQueueIndex_twice. apply setQueueIndex_same.
      rewrite Hi. f_equal. symmetry. rewrite Zplus_mod_idemp_l.
      replace (i + d + e) with i by lia. apply Z.mod_small. lia. }
    split; apply H; auto.
  - assert (∀ d, stepQueue d s = s) as H
      by (intros; apply Player.stepQueue_noop; auto).
    by rewrite !H.
Qed.

Lemma iter_stepQueue (k : nat) s i :
  cursorInBounds s → queueIndex s = Some i →
  Nat.iter k (stepQueue 1) s
  = setQueueIndex
      (Some ((i + Z.of_nat k) `mod` Z.of_nat (length (queue s)))) s.
Proof.
  intros Hb Hi. pose proof Hb as Hb'.
  unfold cursorInBounds in Hb'. rewrite Hi in Hb'.
  induction k as [|k IH].
  - simpl. symmetry. apply setQueueIndex_same. rewrite Hi. f_equal.
    rewrite Z.add_0_r. symmetry. apply Z.mod_small. lia.
  - rewrite Nat.iter_succ, IH.
    rewrite (stepQueue_mod 1 _ ((i + Z.of_nat k) `mod` Z.of_nat (length (queue s))));
      [|unfold cursorInBounds; simpl; apply Z.mod_pos_bound; lia|done|auto].
    simpl queue. rewrite setQueueIndex_twice. f_equal. f_equal.
    rewrite Zplus_mod_idemp_l. f_equal. lia.
Qed.

(** X7. Automatic advance goes round the queue: after [k] forward
    steps the cursor is the old cursor plus [k] modulo the length,
    and after as many steps as the queue is long the state is the one
    the stepping started from. *)
Theorem step_cycle (s : State) :
  reachable s →
  (∀ k i, queueIndex s = Some i →
     queueIndex (Nat.iter k (stepQueue 1) s)
     = Some ((i + Z.of_nat k) `mod` Z.of_nat (length (queue s)))
     ∧ queue (Nat.iter k (stepQueue 1) s) = queue s)
  ∧ Nat.iter (length (queue s)) (stepQueue 1) s = s.
Proof.
  intros [Hb _]%Player.reachable_invariant. split.
  - intros k i Hi. by rewrite (iter_stepQueue k s i).
  - destruct (queueIndex s) as [i|] eqn:Hi.
    + rewrite (iter_stepQueue _ s i) by done.
      apply setQueueIndex_same. rewrite Hi. f_equal. symmetry.
      unfold cursorInBounds in Hb. rewrite Hi in Hb.
      rewrite <- (Z.mul_1_l (Z.of_nat (length (queue s)))) at 1.
      rewrite Z.mod_add by lia. apply Z.mod_small. lia.
    + induction (length (queue s)) as [|k IH]; [done|].
      rewrite Nat.iter_succ, IH. apply Player.stepQueue_noop. auto.
Qed.

(** X8. The step buttons are disabled only where they would do
    nothing: when [canStep] is false (at most one song queued, or no
    cursor) a step in either direction, and the automatic advance at
    the end of a track, leave the state as it is. *)
Theorem disabled_step_is_noop (s : State) (dir : Z) :
  reachable s → dir = 1 ∨ dir = -1 → canStep s = false →
  stepQueue dir s = s ∧ dispatch Ended s = s ∧ dispatch StepPrev s = s.
Proof.
  intros [Hb Hs]%Player.reachable_invariant Hd Hc.
  assert (∀ d, d = 1 ∨ d = -1 → stepQueue d s = s) as H.
  { intros d Hd'. destruct (queueIndex s) as [i|] eqn:Hi;
      [|apply Player.stepQueue_noop; auto].
    rewrite (stepQueue_mod d s i) by done. apply setQueueIndex_same.
    rewrite Hi. f_equal.
    unfold canStep in Hc. rewrite Hi in Hc.
    rewrite (bool_decide_eq_true_2 (Some i ≠ None)) in Hc by done.
    rewrite andb_true_r in Hc. apply bool_decide_eq_false in Hc.
    unfold cursorInBounds in Hb. rewrite Hi in Hb.
    assert (Z.of_nat (length (queue s)) = 1) as -> by lia.
    rewrite Z.mod_1_r. lia. }
  split; [by apply H|].
  unfold dispatch. simpl. rewrite !H by auto.
  split; by apply Player.trackEffect_id.
Qed.

End stepping.
End Stepping.

(** ** The audio element *)
Module Audio.
Import JsString JsArray App Shape.

Section audio.
Context {host : Host}.

Lemma handle_keeps_refs e s :
  prevIdRef (handle e s) = prevIdRef s
  ∧ prevUrlRef (handle e s) = prevUrlRef s
  ∧ audioSrc (handle e s) = audioSrc s.
Proof.
  destruct e; simpl; try done.
  - unfold postComment. by destruct (routeSong s).
  - unfold playBySong. case_decide; [done|]. by destruct (negb _).
  - unfold playAllVisible. destruct (visible s); [done|].
    destruct (_ ≫= _); [|done]. by destruct (negb _).
  - unfold stepQueue. by destruct (queue s), (queueIndex s).
  - unfold stepQueue. by destruct (queue s), (queueIndex s).
  - unfold stepQueue. by destruct (queue s), (queueIndex s).
  - unfold togglePlay. destruct (negb _); [done|]. by destruct paused.
Qed.

Lemma trackEffect_loaded s :
  prevUrlRef s = None ∨ prevUrlRef s = Some (audioSrc s) →
  prevUrlRef (trackEffect s) = Some (audioSrc (trackEffect s)).
Proof.
  intros H. unfold trackEffect. case_decide as Hc.
  - by destruct (truthy _).
  - destruct H as [H|H]; [|done]. destruct Hc. right. by rewrite H.
Qed.

(** The ref of the last loaded source is the source of the element. *)
Lemma reachable_loaded s : reachable s → prevUrlRef s = Some (audioSrc s).
Proof.
  induction 1 as [d hash|e s _ IH].
  - apply trackEffect_loaded. by left.
  - apply trackEffect_loaded. right.
    destruct (handle_keeps_refs e s) as (_ & -> & ->). done.
Qed.

Lemma reachable_audioSrc s :
  reachable s → audioSrc s = default "" (audioUrl <$> currentSong s).
Proof.
  intros Hr. pose proof (reachable_loaded s Hr) as Hl.
  destruct (Player.reachable_invariant s Hr) as [_ [_ Hurl]].
  rewrite Hurl in Hl. by injection Hl.
Qed.

Lemma dispatch_same_track e s :
  reachable s → track (handle e s) = track s → dispatch e s = handle e s.
Proof.
  intros Hr [= H1 H2].
  destruct (Player.reachable_invariant s Hr) as [_ [Hid Hurl]].
  unfold dispatch. apply Player.trackEffect_id.
  destruct (handle_keeps_refs e s) as (Hi' & Hu' & _).
  split; [by rewrite Hi', H1|by rewrite Hu', H2].
Qed.

Lemma dispatch_new_track e s :
  reachable s → track (handle e s) ≠ track s →
  audioSrc (dispatch e s) = (track (handle e s)).2
  ∧ ((track (handle e s)).2 = "" → isPlaying (dispatch e s) = false)
  ∧ ((track (handle e s)).2 ≠ "" →
     isPlaying (dispatch e s) = isPlaying (handle e s)).
Proof.
  intros Hr Hne.
  destruct (Player.reachable_invariant s Hr) as [_ [Hid Hurl]].
  unfold dispatch, trackEffect.
  destruct (handle_keeps_refs e s) as (Hi' & Hu' & _).
  rewrite decide_True.
  - unfold track. simpl. destruct (truthy _) eqn:Ht; simpl.
    + split; [done|]. split; [|done].
      intros E. revert Ht. rewrite E. done.
    + split; [done|]. split; [done|].
      intros E. revert Ht E.
      by destruct (default "" (audioUrl <$> currentSong (handle e s))).
  - rewrite Hi', Hu', Hid, Hurl.
    destruct (decide (id <$> currentSong (handle e s) = id <$> currentSong s))
      as [E1|E1]; [|by left].
    right. intros [= E2]. apply Hne. unfold track. by rewrite E1, E2.
Qed.

(** X9. Track-change detection.  In the running program the source of
    the audio element is the audio source of the current song (empty
    when there is none).  An event after which the current song has
    the same identifier and source touches neither the element nor
    the playing flag the handler set; an event that changes either
    loads the new source, and forces playing to false when that
    source is empty. *)
Theorem audio_follows_track (s : State) :
  reachable s →
  audioSrc s = default "" (audioUrl <$> currentSong s)
  ∧ (∀ e, track (handle e s) = track s → dispatch e s = handle e s)
  ∧ (∀ e, track (handle e s) ≠ track s →
       audioSrc (dispatch e s) = (track (handle e s)).2
       ∧ ((track (handle e s)).2 = "" → isPlaying (dispatch e s) = false)
       ∧ ((track (handle e s)).2 ≠ "" →
          isPlaying (dispatch e s) = isPlaying (handle e s)))
  ∧ (∀ i, dispatch (ToggleLike i) s = handle (ToggleLike i) s)
  ∧ (∀ q, dispatch (SetQuery q) s = handle (SetQuery q) s)
  ∧ (∀ m, dispatch (SetSortMode m) s = handle (SetSortMode m) s)
  ∧ (∀ to, dispatch (Navigate to) s = handle (Navigate to) s).
Proof.
  intros Hr.
  split; [by apply reachable_audioSrc|].
  split; [intros; by apply dispatch_same_track|].
  split; [intros; by apply dispatch_new_track|].
  split_and!; intros; by apply dispatch_same_track.
Qed.

Lemma currentSong_updateSong i url s :
  currentSong (updateSong i url s) = patchAudio i url <$> currentSong s.
Proof.
  unfold currentSong, updateSong. simpl.
  destruct (queueIndex s) as [k|]; [|done]. simpl.
  destruct (at_index _ _) as [j|]; [|done].
  change (map (λ x, if decide (id x = i) then withAudioUrl url x else x))
    with (fmap (M:=list) (patchAudio i url)).
  apply Playback.findById_patch.
Qed.

(** X10. Attaching audio to the song that is current loads it: after
    [updateSong] on its identifier the current song is the same song
    with the new source, the audio element holds that source, queue
    and cursor are as before, and an empty source stops playback. *)
Theorem attach_audio_loads (s : State) (x : Song) (url : string) :
  reachable s → currentSong s = Some x →
  let s' := dispatch (UpdateSong (id x) url) s in
  currentSong s' = Some (withAudioUrl url x)
  ∧ audioSrc s' = url
  ∧ queue s' = queue s ∧ queueIndex s' = queueIndex s
  ∧ (url = "" → audioUrl x ≠ "" → isPlaying s' = false).
Proof.
  intros Hr Hx s'.
  assert (currentSong s' = Some (withAudioUrl url x)) as Hc.
  { unfold s', dispatch. rewrite Player.trackEffect_currentSong. simpl.
    rewrite currentSong_updateSong, Hx. simpl. unfold patchAudio.
    by rewrite decide_True. }
  assert (reachable s') as Hr' by by constructor.
  pose proof (reachable_audioSrc s' Hr') as Ha.
  pose proof (λ e, dispatch_new_track e s Hr) as Hch.
  split; [done|]. split; [by rewrite Ha, Hc|].
  split; [by apply Player.dispatch_keeps_queue|].
  split; [by apply Player.dispatch_keeps_queue|].
  intros -> Hne.
  destruct (Hch (UpdateSong (id x) "")) as (_ & Hp & _).
  - unfold track. simpl. rewrite currentSong_updateSong, Hx. simpl.
    unfold patchAudio. rewrite decide_True by done. simpl. congruence.
  - apply Hp. unfold track. simpl. rewrite currentSong_updateSong, Hx. simpl.
    unfold patchAudio. by rewrite decide_True.
Qed.

End audio.
End Audio.

(** ** Routes and titles *)
Module Routing.
Import JsString App Router Pages Plain.

Lemma pageTitle_table p :
  p ∈ (path <$> routes) → pageTitle p ≠ SITE ∧ isSongPath p = false
                           ∧ currentRoute p ≠ "notfound"
                           ∧ currentRoute p ≠ "song".
Proof.
  simpl. rewrite !elem_of_cons, elem_of_nil.
  intros H. repeat (destruct H as [->|H]; [by vm_compute|]). done.
Qed.

Lemma pageTitle_other p : p ∉ (path <$> routes) → pageTitle p = SITE.
Proof.
  simpl. rewrite !not_elem_of_cons. intros H.
  unfold pageTitle. by rewrite !decide_False by tauto.
Qed.

Lemma currentRoute_other p :
  p ∉ (path <$> routes) → isSongPath p = false → currentRoute p = "notfound".
Proof.
  simpl. rewrite !not_elem_of_cons. intros H Hs.
  unfold currentRoute. rewrite Hs. unfold routes, list_find. simpl.
  by rewrite !decide_False by (intros E; symmetry in E; tauto).
Qed.

Lemma computeTitle_song p x :
  isSongPath p = true → title x ≠ "" →
  computeTitle p (Some x) = title x +:+ " – Brian's Songs".
Proof.
  intros Hp Ht%JsStringFacts.truthy_spec. unfold computeTitle.
  by rewrite Hp, Ht.
Qed.

(** X11. The title of the page.  On a song detail route with a
    resolved, titled song it is the title of the song followed by the
    site name; off the detail routes the song plays no part.  Without
    a song the title is the bare site name exactly on the routes
    tagged [notfound] or [song]; every route of the table is tagged
    with its lower-cased label and, but for the request page, titled
    with its label. *)
Theorem title_spec :
  (∀ p x, isSongPath p = true → title x ≠ "" →
     computeTitle p (Some x) = title x +:+ " – Brian's Songs")
  ∧ (∀ p song, isSongPath p = false →
     computeTitle p song = computeTitle p None)
  ∧ (∀ p, computeTitle p None = SITE
          ↔ currentRoute p = "notfound" ∨ currentRoute p = "song")
  ∧ (∀ r, r ∈ routes →
     currentRoute (path r) = toLowerCase (label r)
     ∧ (path r ≠ "/request" →
        computeTitle (path r) None = label r +:+ " – Brian's Songs"))
  ∧ computeTitle "/request" None = "Request a Song – Brian's Songs".
Proof.
  split_and!.
  - apply computeTitle_song.
  - intros p [x|] Hp; [|done]. unfold computeTitle. by rewrite Hp.
  - intros p. simpl.
    destruct (decide (p ∈ (path <$> routes))) as [Hin|Hout].
    + destruct (pageTitle_table p Hin) as (H1 & _ & H2 & H3). split; [done|].
      by intros [?|?].
    + rewrite (pageTitle_other p Hout). split; [|done]. intros _.
      destruct (isSongPath p) eqn:Hs.
      * right. unfold currentRoute. by rewrite Hs.
      * left. by apply currentRoute_other.
  - unfold routes. intros r. rewrite !elem_of_cons, elem_of_nil.
    intros H. repeat (destruct H as [->|H]; [by vm_compute|]). done.
  - done.
Qed.

(** X12. Reading the location.  [readHash] never leaves the path
    empty: an empty hash, or a bare [#], gives the home path, and a
    hash [#to] gives [to].  For a [to] that the location stores as it
    is written - printable ASCII that the fragment of a URL does not
    percent-encode, not starting with [#] - the hash after
    [navigate(to)] is [#to], and reading it confirms the path that
    [navigate] has set. *)
Theorem readHash_spec (s : State) :
  (∀ hash, App.path (readHash hash s) ≠ "")
  ∧ App.path (readHash "" s) = "/"
  ∧ App.path (readHash "#" s) = "/"
  ∧ (∀ to, to ≠ "" → App.path (readHash ("#" +:+ to) s) = to)
  ∧ (∀ to, to ≠ "" → fragmentSafe to = true → startsWith to "#" = false →
     readHash ("#" +:+ to) (navigate to s) = navigate to s).
Proof.
  split; [|split; [done|split; [done|split]]].
  - intros hash. unfold readHash. simpl.
    destruct hash as [|c [|d r]]; simpl; try done.
    + by destruct (decide (c = "#"%char)) as [->|]; [|destruct c as [[] [] [] [] [] [] [] []]].
    + by destruct c as [[] [] [] [] [] [] [] []].
  - intros to Hto. unfold readHash.
    change ("#" +:+ to) with (String "#" to). simpl.
    destruct to; [done|]. done.
  - intros to Hto _ _. unfold readHash, navigate.
    change ("#" +:+ to) with (String "#" to). simpl.
    destruct to; [done|]. done.
Qed.

Section detail.
Context {host : Host}.


End detail.
End Routing.

(** ** The pages *)
Module PageFacts.
Import JsString JsArray JsArrayFacts App Pages Shape Plain.

Section pages.
Context {host : Host}.

Lemma visible_trackEffect s : visible (trackEffect s) = visible s.
Proof. unfold trackEffect. case_decide; [|done]. by destruct (truthy _). Qed.

Lemma unlock_flag pw :
  bool_decide (0 < String.length (trim pw))%nat = negb (all_white pw).
Proof.
  destruct (all_white pw) eqn:Hw; simpl.
  - apply Normalise.trim_empty in Hw. by rewrite Hw.
  - apply bool_decide_eq_true. destruct (trim pw) eqn:Ht; simpl; [|lia].
    apply Normalise.trim_empty in Ht. congruence.
Qed.

(** X14. The unlock form, for an ASCII password: the flag becomes
    true exactly when the password has a character that is not white
    space.  On the private route the list is then at once the text
    filter of the whole catalog - every song, of either visibility,
    when the search text is blank - and it is empty after a blank
    password. *)
Theorem unlock_spec (pw : string) (s : State) :
  let s' := dispatch (Unlock pw) s in
  asciiOnly pw = true →
  privateUnlocked (store s') = negb (all_white pw)
  ∧ songs (store s') = songs (store s)
  ∧ (path s = "/private" → all_white pw = false →
     visible s' ≡ₚ textFilter (query s) (songs (store s))
     ∧ (all_white (query s) = true → visible s' ≡ₚ songs (store s)))
  ∧ (path s = "/private" → all_white pw = true → visible s' = []).
Proof.
  intros s' _.
  assert (store s' = store (handle (Unlock pw) s)) as Hst
    by apply Player.trackEffect_store.
  assert (visible s' = visible (handle (Unlock pw) s)) as Hv
    by apply visible_trackEffect.
  rewrite Hst, Hv. unfold visible. simpl. rewrite unlock_flag.
  split; [done|]. split; [done|]. split.
  - intros -> ->. simpl. rewrite View.visibleSongs_Permutation.
    split; [done|]. intros Hq. unfold textFilter.
    by rewrite JsStringFacts.trim_all_white.
  - intros -> ->. simpl.
    apply Permutation_nil_r. rewrite View.visibleSongs_Permutation.
    unfold gate, textFilter. simpl. by destruct (truthy _).
Qed.

(** *** Comments *)




(** *** Likes *)

Lemma likeBonus_toggle i liked x :
  likeBonus (<[i := negb (default false (liked !! i))]> liked) x
  = if decide (id x = i) then 1 - likeBonus liked x else likeBonus liked x.
Proof.
  unfold likeBonus. case_decide as Hi.
  - rewrite <- Hi, lookup_insert_eq. simpl.
    by destruct (default false (liked !! id x)).
  - by rewrite lookup_insert_ne.
Qed.

Lemma comparator_bonus_ext mode l1 l2 :
  (∀ x, likeBonus l1 x = likeBonus l2 x) →
  ∀ a b, comparator mode l1 a b = comparator mode l2 a b.
Proof.
  intros H a b. unfold comparator. repeat case_decide; try done.
  unfold byLikesDesc, likeWeight. by rewrite !H.
Qed.

Lemma visibleSongs_bonus_ext songs q p u mode l1 l2 :
  (∀ x, likeBonus l1 x = likeBonus l2 x) →
  visibleSongs songs q p u mode l1 = visibleSongs songs q p u mode l2.
Proof.
  intros H. unfold visibleSongs. apply sort_ext_in.
  intros a b _ _. by apply comparator_bonus_ext.
Qed.

(** X16. The like button.  A toggle changes the like weight of the
    songs of that identifier by one, up when the song was not liked
    and down when it was, and of no other song - for a song whose
    like count is a non-negative integer below 2^53, to which
    JavaScript adds one without rounding; it reorders the list in no
    mode but [liked]; and a second toggle restores the list in every
    mode. *)
Theorem toggleLike_spec (i : Z) (s : State) :
  let l := liked (store s) in
  let l' := liked (store (toggleLike i s)) in
  (∀ x, safeLikes x →
        likeWeight l' x
        = if decide (id x = i) then likes x + (1 - likeBonus l x)
          else likeWeight l x)
  ∧ (sortMode (store s) ≠ "liked" → visible (toggleLike i s) = visible s)
  ∧ visible (toggleLike i (toggleLike i s)) = visible s
  ∧ songs (store (toggleLike i s)) = songs (store s).
Proof.
  intros l l'. split_and!.
  - intros x _. unfold likeWeight, l', toggleLike. simpl.
    rewrite likeBonus_toggle. by case_decide.
  - intros Hm. unfold visible, toggleLike, visibleSongs, comparator. simpl.
    by rewrite !(decide_False (P:=sortMode (store s) = "liked")).
  - unfold visible. simpl. apply visibleSongs_bonus_ext. intros x.
    rewrite !likeBonus_toggle. case_decide; [|done].
    unfold likeBonus. by destruct (default false _).
  - done.
Qed.

(** *** The play buttons of the home and playlists pages *)

Lemma textFilter_blank q l : all_white q = true → textFilter q l = l.
Proof.
  intros H. unfold textFilter. by rewrite JsStringFacts.trim_all_white.
Qed.

Lemma public_song_visible s x :
  path s ≠ "/private" → all_white (query s) = true →
  x ∈ songs (store s) → isPublic x → x ∈ visible s.
Proof.
  intros Hp Hq Hx Hpub. apply View.elem_of_visibleSongs.
  rewrite textFilter_blank by done. unfold gate.
  rewrite decide_True by done. by apply list_elem_of_filter.
Qed.

Lemma latest_elem l x : latest l = Some x → x ∈ l ∧ isPublic x.
Proof.
  unfold latest. intros H%head_Some_elem_of%elem_of_sort.
  by apply list_elem_of_filter in H as [? ?].
Qed.

Lemma featured_elem l x : x ∈ featured l → x ∈ l ∧ isPublic x.
Proof.
  unfold featured. intros H.
  eapply elem_of_sublist in H; [|apply sublist_take].
  by apply list_elem_of_filter in H as [? ?].
Qed.

Lemma bucket_elem mood l x : x ∈ bucket mood l → x ∈ l ∧ isPublic x.
Proof.
  unfold bucket. intros H.
  eapply elem_of_sublist in H; [|apply sublist_take].
  apply list_elem_of_filter in H as [? H].
  by apply list_elem_of_filter in H as [_ ?].
Qed.

(** X17. Every play button of the home page and of the playlists page
    (latest song, featured teaser, mood buckets) targets a public song
    of the catalog; with a blank search text, off the private route,
    pressing it starts playback: the song is in the snapshot and
    playing becomes true. *)
Theorem page_buttons_play (s : State) (x : Song) :
  latest (songs (store s)) = Some x
  ∨ x ∈ featured (songs (store s))
  ∨ (∃ mood, x ∈ bucket mood (songs (store s))) →
  (x ∈ songs (store s) ∧ visibility x = "public")
  ∧ (path s ≠ "/private" → all_white (query s) = true →
     id x ∈ queue (playBySong x s)
     ∧ isPlaying (playBySong x s) = true
     ∧ ∃ y, currentSong (playBySong x s) = Some y ∧ id y = id x).
Proof.
  intros H.
  assert (x ∈ songs (store s) ∧ isPublic x) as [Hx Hpub].
  { destruct H as [H|[H|[mood H]]];
      eauto using latest_elem, featured_elem, bucket_elem. }
  split; [done|]. intros Hp Hq.
  assert (id x ∈ map id (visible s)) as Hin
    by by apply Player.elem_of_ids, public_song_visible.
  destruct (Player.playBySong_present x s Hin) as (Hqu & Hi & Hpl & _).
  split; [by rewrite Hqu|]. split; [done|].
  destruct (Playback.findById_is_Some (songs (store s)) (id x)) as [y Hy];
    [by apply Player.elem_of_ids|].
  exists y. split; [|by eapply Playback.findById_Some].
  destruct (Player.playBySong_present x s Hin) as (_ & _ & _ & _ & Hst & _).
  rewrite (Playback.currentSong_of _ _ _ _ Hqu Hi Hst).
  destruct (indexOf_spec (map id (visible s)) (id x))
    as [[_ ?]|(n & -> & Hn & _)]; [done|].
  by rewrite Playback.at_index_of_nat, Hn.
Qed.

(** *** The latest song and the sort label *)

Lemma StronglySorted_head {A} (R : relation A) l x y :
  StronglySorted R l → head l = Some x → y ∈ l → x = y ∨ R x y.
Proof.
  intros Hs Hh Hy. destruct l as [|z l]; [done|].
  simpl in Hh. injection Hh as ->.
  apply StronglySorted_inv in Hs as [_ Hall].
  apply elem_of_cons in Hy as [->|Hy]; [by left|right].
  by eapply Forall_forall in Hall.
Qed.

(** X18. The song of the "Play Latest" button.  When the release
    dates of the catalog are dates, it is a public song of the catalog
    that no public song is newer than; there is none exactly when the
    catalog has no public song; and it heads the visible list of the
    [newest] mode whenever the search text is blank, off the private
    route. *)
Theorem latest_is_newest (songs : list Song) (t : Song → Z) :
  (∀ x, x ∈ songs → getTime (releaseDate x) = Some (t x)) →
  (latest songs = None ↔ ∀ x, x ∈ songs → visibility x ≠ "public")
  ∧ (∀ x, latest songs = Some x →
       x ∈ songs ∧ visibility x = "public"
       ∧ ∀ y, y ∈ songs → visibility y = "public" → t y ≤ t x)
  ∧ (∀ q p unlocked liked, p ≠ "/private" → all_white q = true →
       head (visibleSongs songs q p unlocked "newest" liked) = latest songs).
Proof.
  intros Ht. split_and!.
  - unfold latest. split.
    + intros Hn x Hx Hpub.
      assert (x ∈ sort byDateDesc (filter isPublic songs)) as Hin
        by by apply elem_of_sort, list_elem_of_filter.
      destruct (sort _ _); [by apply elem_of_nil in Hin|done].
    + intros Hn. destruct (sort _ _) as [|x l] eqn:E; [done|exfalso].
      assert (x ∈ sort byDateDesc (filter isPublic songs)) as Hin
        by (rewrite E; left).
      apply elem_of_sort, list_elem_of_filter in Hin as [Hpub Hx].
      by apply (Hn x).
  - intros x Hx. destruct (latest_elem _ _ Hx) as [Hin Hpub].
    split; [done|]. split; [done|]. intros y Hy Hypub.
    unfold latest in Hx.
    assert (sort byDateDesc (filter isPublic songs)
            = sort (λ a b, Some (t b - t a)) (filter isPublic songs)) as E.
    { apply sort_ext_in. intros a b [_ Ha]%list_elem_of_filter
        [_ Hb]%list_elem_of_filter.
      unfold byDateDesc. by rewrite (Ht a), (Ht b). }
    rewrite E in Hx.
    destruct (StronglySorted_head (λ a b, t b ≤ t a)
                (sort (λ a b, Some (t b - t a)) (filter isPublic songs)) x y)
      as [->|H]; [|done| |done..].
    + apply sort_StronglySorted; unfold sortCompare; simpl; intros; lia.
    + by apply elem_of_sort, list_elem_of_filter.
  - intros q p unlocked liked Hp Hq. unfold visibleSongs, latest.
    rewrite textFilter_blank by done. unfold gate.
    by rewrite decide_True.
Qed.

(** X19. The label of the music page against the order of the list.
    A sort mode other than [newest] and [liked] is labelled "Sorted
    A–Z"; the list is ordered by title only for [az], and for every
    other such mode it is the list of the [newest] mode. *)
Theorem sortLabel_vs_order (m : string) songs q p unlocked liked :
  m ≠ "newest" → m ≠ "liked" →
  sortLabel m = "Sorted A–Z"
  ∧ (m = "az" → comparator m liked = byTitleAsc)
  ∧ (m ≠ "az" →
     comparator m liked = byDateDesc
     ∧ visibleSongs songs q p unlocked m liked
       = visibleSongs songs q p unlocked "newest" liked).
Proof.
  intros H1 H2. unfold sortLabel. rewrite !decide_False by done.
  split; [done|]. split.
  - by intros ->.
  - intros H3. unfold visibleSongs.
    by rewrite (View.comparator_other m) by done.
Qed.

End pages.
End PageFacts.

(** ** Export and import *)
Module ExportFacts.
Import DataPage DataExport.

(** X20. Round trip of the backup.  Importing the object that the
    export serialises restores every slice of the exporting state,
    whatever the state it is imported into, and reports completion;
    [liked] and [comments] are objects or arrays, as they are in every
    state the program builds. *)
Theorem export_import_roundtrip (exportedAt : string) (d : Slices) (s : State) :
  isContainer (liked d) = true → isContainer (comments d) = true →
  onImportFile (File (Some (dataObject exportedAt d))) s
  = {| slices := d; status := IMPORT_COMPLETE |}.
Proof.
  intros Hl Hc. unfold onImportFile. simpl. f_equal.
  unfold importSortMode, importPrivateUnlocked, importGuestbook,
    importComments, importLiked, importSongs. simpl.
  destruct d as [so li co gu pr sm]. simpl in *.
  destruct li; try done; destruct co; try done.
Qed.

Lemma truthy_object_container v :
  truthy v && typeofObject v = true → isContainer v = true.
Proof. destruct v; simpl; rewrite ?andb_false_r; done. Qed.

Ltac keep_typed k :=
  intros [Hl Hc]; destruct (prop _ k) as [[]|]; by split.

Ltac keep_object k :=
  let v := fresh "v" in
  let E := fresh "E" in
  intros [Hl Hc]; destruct (prop _ k) as [v|]; [|by split];
  destruct (truthy v && typeofObject v) eqn:E; simpl; [|by split];
  split; try done; by apply truthy_object_container.

Lemma importSongs_containers parsed d :
  isContainer (liked d) = true ∧ isContainer (comments d) = true →
  isContainer (liked (importSongs parsed d)) = true
  ∧ isContainer (comments (importSongs parsed d)) = true.
Proof. unfold importSongs. keep_typed "songs". Qed.

Lemma importLiked_containers parsed d :
  isContainer (liked d) = true ∧ isContainer (comments d) = true →
  isContainer (liked (importLiked parsed d)) = true
  ∧ isContainer (comments (importLiked parsed d)) = true.
Proof. unfold importLiked. keep_object "liked". Qed.

Lemma importComments_containers parsed d :
  isContainer (liked d) = true ∧ isContainer (comments d) = true →
  isContainer (liked (importComments parsed d)) = true
  ∧ isContainer (comments (importComments parsed d)) = true.
Proof. unfold importComments. keep_object "comments". Qed.

Lemma importGuestbook_containers parsed d :
  isContainer (liked d) = true ∧ isContainer (comments d) = true →
  isContainer (liked (importGuestbook parsed d)) = true
  ∧ isContainer (comments (importGuestbook parsed d)) = true.
Proof. unfold importGuestbook. keep_typed "guestbook". Qed.

Lemma importPrivateUnlocked_containers parsed d :
  isContainer (liked d) = true ∧ isContainer (comments d) = true →
  isContainer (liked (importPrivateUnlocked parsed d)) = true
  ∧ isContainer (comments (importPrivateUnlocked parsed d)) = true.
Proof. unfold importPrivateUnlocked. keep_typed "privateUnlocked". Qed.

Lemma importSortMode_containers parsed d :
  isContainer (liked d) = true ∧ isContainer (comments d) = true →
  isContainer (liked (importSortMode parsed d)) = true
  ∧ isContainer (comments (importSortMode parsed d)) = true.
Proof. unfold importSortMode. keep_typed "sortMode". Qed.

(** X21. The import keeps [liked] and [comments] objects or arrays:
    a field of another type, or a missing one, leaves the slice as it
    was, whatever else the payload holds. *)
Theorem import_keeps_containers (u : Upload) (s : State) :
  isContainer (liked (slices s)) = true →
  isContainer (comments (slices s)) = true →
  isContainer (liked (slices (onImportFile u s))) = true
  ∧ isContainer (comments (slices (onImportFile u s))) = true.
Proof.
  intros Hl Hc. destruct u as [|[parsed|]]; [done| |done].
  unfold onImportFile. destruct (_ || _); [done|].
  cbn [slices].
  apply importSortMode_containers, importPrivateUnlocked_containers,
    importGuestbook_containers, importComments_containers,
    importLiked_containers, importSongs_containers.
  done.
Qed.

End ExportFacts.

(** ** The local storage hook *)
Module StorageFacts.
Import LocalStorage.

Section storage.
Context {T : Type} (parse : string → option T) (stringify : T → string).

(** X22. Persist and reload.  A value written back is the initial
    state of the next session when [JSON.parse] inverts
    [JSON.stringify] on it; a write under another key, or a write the
    storage refuses, changes nothing for this key; and the initial
    value is used when the storage is unavailable, the key is missing,
    the item is empty or the item does not parse. *)
Theorem persist_reload (m : gmap string string) (key : string) (v d : T) :
  parse (stringify v) = Some v → stringify v ≠ "" →
  initialState parse (writeBack stringify (Some m) key v true) key d = v
  ∧ (∀ key' w ok, key' ≠ key →
       initialState parse (writeBack stringify (Some m) key' w ok) key d
       = initialState parse (Some m) key d)
  ∧ (∀ w, initialState parse (writeBack stringify (Some m) key w false) key d
          = initialState parse (Some m) key d)
  ∧ initialState parse None key d = d
  ∧ (m !! key = None → initialState parse (Some m) key d = d)
  ∧ (∀ item, m !! key = Some item → item = "" ∨ parse item = None →
       initialState parse (Some m) key d = d).
Proof.
  intros Hrt Hne. unfold initialState, writeBack. split_and!.
  - rewrite lookup_insert_eq.
    apply JsStringFacts.truthy_spec in Hne. by rewrite Hne, Hrt.
  - intros key' w [] Hk; [|done]. by rewrite lookup_insert_ne.
  - done.
  - done.
  - by intros ->.
  - intros item -> [->|Hp]; [done|]. rewrite Hp. by destruct (JsString.truthy _).
Qed.

End storage.
End StorageFacts.

(** ** The index-based player *)
Module LiveIndexFacts.
Import JsString JsArray LiveIndex.

Lemma song_path_not_private g : "/song/" +:+ g ≠ "/private".
Proof. intros E. discriminate E. Qed.

Section live.
Context {host : Host}.

Lemma visible_off_private (s s' : State) :
  store s' = store s → query s' = query s →
  path s ≠ "/private" → path s' ≠ "/private" →
  visible s' = visible s.
Proof.
  intros Hst Hq Hp Hp'. unfold visible, visibleSongs, gate.
  by rewrite Hst, Hq, !decide_True.
Qed.

Lemma findIndex_spec l i :
  (findIndex l i = -1 ∧ i ∉ map id l)
  ∨ (∃ (n : nat) y, findIndex l i = Z.of_nat n ∧ l !! n = Some y ∧ id y = i).
Proof.
  unfold findIndex. destruct (list_find _ l) as [[n y]|] eqn:H.
  - right. apply list_find_Some in H as (Hl & Hy & _). by exists n, y.
  - left. split; [done|]. apply list_find_None in H.
    intros (x & Hx & Hin)%list_elem_of_fmap.
    by eapply Forall_forall in H.
Qed.

(** X23. The index-based [playBySong] off the private route: for a
    song whose identifier is in the visible list, the song shown by
    the MiniPlayer is a song of that identifier and playing is true.
    (On the private route the navigation to the detail page changes
    the list the index points into.) *)
Theorem live_play_resolves (x : Song) (s : State) :
  id x ∈ map id (visible s) → path s ≠ "/private" →
  let s' := playBySong x s in
  (∃ y, song s' = Some y ∧ id y = id x) ∧ isPlaying s' = true
  ∧ visible s' = visible s.
Proof.
  intros Hin Hp s'.
  destruct (findIndex_spec (visible s) (id x)) as [[_ ?]|(n & y & Hn & Hl & Hy)];
    [done|].
  assert (visible s' = visible s) as Hv.
  { unfold s', playBySong. case_decide; [|done].
    destruct (negb _); [|done].
    apply visible_off_private; done || apply song_path_not_private. }
  assert (activeIndex s' = Some (Z.of_nat n) ∧ isPlaying s' = true) as [Hi Hpl].
  { unfold s', playBySong. rewrite Hn.
    rewrite decide_True by lia. by destruct (negb _). }
  split; [|done]. exists y. split; [|done].
  unfold song. rewrite Hi, Hv. simpl.
  unfold at_index. rewrite decide_True by lia. by rewrite Nat2Z.id.
Qed.

Lemma step_index dir s i :
  visible s ≠ [] → activeIndex s = Some i →
  step dir s
  = setActiveIndex
      (Some ((i + dir + Z.of_nat (length (visible s)))
             `rem` Z.of_nat (length (visible s)))) s.
Proof.
  intros Hq Hi. unfold step. rewrite Hi. by destruct (visible s) eqn:E.
Qed.

(** X24. The index-based [step]: from any index that is not negative,
    also one left past the end by a change of the list, a step by
    plus or minus one lands inside the current visible list, on the
    index plus the direction modulo its length. *)
Theorem live_step_reenters (s : State) (i dir : Z) :
  activeIndex s = Some i → 0 ≤ i → visible s ≠ [] → dir = 1 ∨ dir = -1 →
  let n := Z.of_nat (length (visible s)) in
  activeIndex (step dir s) = Some ((i + dir) `mod` n)
  ∧ 0 ≤ (i + dir) `mod` n < n
  ∧ is_Some (song (step dir s))
  ∧ visible (step dir s) = visible s.
Proof.
  intros Hi H0 Hne Hd n.
  assert (0 < n) as Hn
    by (unfold n; destruct (visible s); [done|rewrite length_cons; lia]).
  assert (step dir s = setActiveIndex (Some ((i + dir) `mod` n)) s) as ->.
  { rewrite (step_index dir s i) by done. fold n. f_equal. f_equal.
    rewrite Z.rem_mod_nonneg by lia.
    rewrite <- (Z.mul_1_l n) at 1. by rewrite Z.mod_add by lia. }
  pose proof (Z.mod_pos_bound (i + dir) n Hn) as Hb.
  split; [done|]. split; [done|]. split; [|done].
  unfold song. cbn [activeIndex setActiveIndex mbind option_bind].
  change (visible (setActiveIndex _ s)) with (visible s).
  unfold at_index. rewrite decide_True by apply Hb.
  apply lookup_lt_is_Some, Nat2Z.inj_lt.
  rewrite Z2Nat.id by apply Hb. apply Hb.
Qed.

(** Without a list or an index the step does nothing. *)
Lemma live_step_noop s dir :
  visible s = [] ∨ activeIndex s = None → step dir s = s.
Proof.
  unfold step. intros [->| ->]; [done|]. by destruct (visible s).
Qed.

End live.
End LiveIndexFacts.

(** ** The further properties on the seeded program *)
Module MoreScenarios.
Import IsoHost IsoHostFacts JsArray.

Ltac in_list :=
  vm_compute;
  repeat first [apply list_elem_of_here | apply list_elem_of_further].

(** The music page after mounting, and playback of "Be Good" started
    from the unlocked private page. *)
Lemma reachable_music : App.reachable (App.mount defaults "#/music").
Proof. constructor. Qed.

Lemma reachable_private_play :
  App.reachable
    (App.run [App.Unlock "family"; App.PlaySong BE_GOOD]
       (App.mount defaults "#/private")).
Proof. apply Scenarios.reachable_run. constructor. Qed.

Lemma seed_ids_NoDup : NoDup (map id SEED_SONGS).
Proof. vm_compute. repeat constructor; rewrite ?elem_of_cons, elem_of_nil; lia. Qed.

Lemma seed_slugs_NoDup : NoDup (map slug SEED_SONGS).
Proof.
  vm_compute. repeat constructor; rewrite ?elem_of_cons, elem_of_nil;
    intros H; repeat (destruct H as [H|H]; [discriminate H|]); done.
Qed.

Lemma updateSong_keeps_listing_witness :
  let s0 := App.mount defaults "#/music" in
  let s' := App.updateSong 1 "https://cdn.example/be-good.mp3" s0 in
  map id (App.visible s') = map id (App.visible s0)
  ∧ audioUrl (withAudioUrl "https://cdn.example/be-good.mp3" BE_GOOD)
    = "https://cdn.example/be-good.mp3".
Proof.
  intros s0 s'.
  destruct (Listing.updateSong_keeps_listing 1
              "https://cdn.example/be-good.mp3" s0)
    as (_ & Hids & _ & _ & _ & Hx & _).
  split; [exact Hids|].
  apply (Hx (withAudioUrl "https://cdn.example/be-good.mp3" BE_GOOD));
    [in_list|done].
Defined.

Lemma play_resolves_requested_witness :
  let s0 := App.mount defaults "#/music" in
  App.currentSong (App.playBySong BE_GOOD s0) = Some BE_GOOD.
Proof.
  intros s0.
  apply (Playback.play_resolves_requested BE_GOOD s0);
    [in_list|apply seed_ids_NoDup|in_list].
Defined.

Lemma play_navigates_witness :
  let s0 := App.mount defaults "#/music" in
  App.path (App.playBySong BE_GOOD s0) = "/song/" +:+ slug BE_GOOD
  ∧ App.routeSong (App.playBySong BE_GOOD s0) = Some BE_GOOD.
Proof.
  intros s0.
  destruct (Playback.play_navigates BE_GOOD s0) as (_ & _ & H); [in_list|].
  destruct H as (Hp & _ & Hr); [done|].
  split; [exact Hp|]. apply Hr; [apply seed_slugs_NoDup|in_list].
Defined.

Lemma queue_from_gate_witness :
  let s0 := App.mount defaults "#/music" in
  App.queue (App.playBySong BE_GOOD s0) = map id (App.visible s0)
  ∧ NoDup (map id (App.visible s0))
  ∧ ∃ x, x ∈ SEED_SONGS ∧ id x = 2 ∧ visibility x = "public".
Proof.
  intros s0.
  destruct (Playback.queue_from_gate s0) as (Hplay & _ & Hgate & Hnd).
  split; [apply Hplay; in_list|]. split; [apply Hnd, seed_ids_NoDup|].
  destruct (Hgate 2) as (x & Hx & Hid & Hpub & _); [in_list|].
  exists x. split; [exact Hx|]. split; [exact Hid|]. by apply Hpub.
Defined.

Lemma step_inverse_witness :
  let s1 := App.run [App.Unlock "family"; App.PlaySong BE_GOOD]
              (App.mount defaults "#/private") in
  App.stepQueue (-1) (App.stepQueue 1 s1) = s1
  ∧ App.stepQueue 1 (App.stepQueue (-1) s1) = s1.
Proof. intros s1. apply Stepping.step_inverse, reachable_private_play. Defined.

Lemma step_cycle_witness :
  let s1 := App.run [App.Unlock "family"; App.PlaySong BE_GOOD]
              (App.mount defaults "#/private") in
  Nat.iter (length (App.queue s1)) (App.stepQueue 1) s1 = s1.
Proof. intros s1. apply Stepping.step_cycle, reachable_private_play. Defined.

Lemma disabled_step_is_noop_witness :
  let s0 := App.mount defaults "#/music" in
  App.stepQueue 1 s0 = s0 ∧ App.dispatch App.Ended s0 = s0
  ∧ App.dispatch App.StepPrev s0 = s0.
Proof.
  intros s0.
  apply Stepping.disabled_step_is_noop;
    [apply reachable_music|by left|by vm_compute].
Defined.

Lemma audio_follows_track_witness :
  let s1 := App.run [App.Unlock "family"; App.PlaySong BE_GOOD]
              (App.mount defaults "#/private") in
  App.audioSrc s1 = default "" (audioUrl <$> App.currentSong s1)
  ∧ App.dispatch (App.ToggleLike 1) s1 = App.handle (App.ToggleLike 1) s1
  ∧ App.isPlaying (App.dispatch App.StepNext s1) = false.
Proof.
  intros s1.
  destruct (Audio.audio_follows_track s1 reachable_private_play)
    as (Hsrc & _ & Hnew & Hlike & _).
  split; [exact Hsrc|]. split; [apply Hlike|].
  destruct (Hnew App.StepNext) as (_ & Hstop & _); [by vm_compute|].
  apply Hstop. by vm_compute.
Defined.

Lemma attach_audio_loads_witness :
  let s1 := App.run [App.Unlock "family"; App.PlaySong BE_GOOD]
              (App.mount defaults "#/private") in
  let s' := App.dispatch (App.UpdateSong (id BE_GOOD) "https://cdn.example/a.mp3") s1 in
  App.currentSong s' = Some (withAudioUrl "https://cdn.example/a.mp3" BE_GOOD)
  ∧ App.audioSrc s' = "https://cdn.example/a.mp3".
Proof.
  intros s1 s'.
  destruct (Audio.attach_audio_loads s1 BE_GOOD "https://cdn.example/a.mp3"
              reachable_private_play) as (Hc & Ha & _); [by vm_compute|].
  by split.
Defined.

Lemma title_spec_witness :
  Router.computeTitle "/song/be-good" (Some BE_GOOD) = "Be Good – Brian's Songs"
  ∧ Router.computeTitle "/music" (Some BE_GOOD) = Router.computeTitle "/music" None
  ∧ Router.computeTitle "/nowhere" None = Router.SITE.
Proof.
  destruct Routing.title_spec as (Hsong & Hoff & Hbare & _).
  split; [by apply Hsong|]. split; [by apply Hoff|].
  apply Hbare. by left.
Defined.

Lemma query_normalised_witness :
  let out := λ text, visibleSongs SEED_SONGS text "/music" false "newest" ∅ in
  out ("  " +:+ "Rock" +:+ " ") = out "Rock" ∧ out "rOCK" = out "Rock".
Proof.
  intros out.
  destruct (Listing.query_normalised SEED_SONGS "Rock" "/music" false "newest" ∅)
    as [Hpad Hcase]; [done|apply Scenarios.seed_plain|].
  split; [by apply Hpad|].
  apply Hcase. apply CaseFold.toLowerCase_eq. by vm_compute.
Defined.

Lemma readHash_spec_witness :
  let s0 := App.mount defaults "#/music" in
  App.path (App.readHash "#/about" s0) = "/about"
  ∧ App.readHash "#/about" (App.navigate "/about" s0) = App.navigate "/about" s0.
Proof.
  intros s0.
  destruct (Routing.readHash_spec s0) as (_ & _ & _ & Hread & Hnav).
  split; [by apply (Hread "/about")|by apply (Hnav "/about")].
Defined.


Lemma unlock_spec_witness :
  let s0 := App.mount defaults "#/private" in
  App.visible (App.dispatch (App.Unlock "family") s0) ≡ₚ SEED_SONGS
  ∧ App.visible (App.dispatch (App.Unlock "  ") s0) = [].
Proof.
  intros s0.
  destruct (PageFacts.unlock_spec "family" s0) as (_ & _ & Hopen & _); [done|].
  destruct (PageFacts.unlock_spec "  " s0) as (_ & _ & _ & Hshut); [done|].
  split; [by apply Hopen|by apply Hshut].
Defined.


Lemma toggleLike_spec_witness :
  let s0 := App.mount defaults "#/music" in
  App.visible (App.toggleLike 1 s0) = App.visible s0
  ∧ likeWeight (liked (App.store (App.toggleLike 1 s0))) BE_GOOD = 25.
Proof.
  intros s0.
  destruct (PageFacts.toggleLike_spec 1 s0) as (Hw & Hv & _).
  split; [by apply Hv|]. rewrite Hw; [done|by vm_compute].
Defined.

Lemma page_buttons_play_witness :
  let s0 := App.mount defaults "#/" in
  App.isPlaying (App.playBySong BE_GOOD s0) = true
  ∧ id BE_GOOD ∈ App.queue (App.playBySong BE_GOOD s0).
Proof.
  intros s0.
  destruct (PageFacts.page_buttons_play s0 BE_GOOD) as (_ & H).
  - right. left. in_list.
  - destruct H as (Hq & Hp & _); [done..|]. by split.
Defined.

Lemma latest_is_newest_witness :
  Pages.latest SEED_SONGS = Some DIMINISHED
  ∧ default 0 (isoTime (releaseDate BE_GOOD))
    ≤ default 0 (isoTime (releaseDate DIMINISHED)).
Proof.
  destruct (PageFacts.latest_is_newest SEED_SONGS
              (λ s, default 0 (isoTime (releaseDate s)))
              Scenarios.seed_times) as (_ & H & _).
  assert (Pages.latest SEED_SONGS = Some DIMINISHED) as E by by vm_compute.
  split; [exact E|].
  destruct (H DIMINISHED E) as (_ & _ & Hmax).
  apply (Hmax BE_GOOD); [in_list|done].
Defined.

Lemma sortLabel_vs_order_witness :
  Pages.sortLabel "shuffle" = "Sorted A–Z"
  ∧ visibleSongs SEED_SONGS "" "/music" false "shuffle" ∅
    = visibleSongs SEED_SONGS "" "/music" false "newest" ∅.
Proof.
  destruct (PageFacts.sortLabel_vs_order "shuffle" SEED_SONGS "" "/music"
              false ∅) as (Hl & _ & Ho); [done..|].
  split; [exact Hl|]. by apply Ho.
Defined.

Lemma export_import_roundtrip_witness :
  let d := {| DataPage.songs := [DataPage.JObject [("id", DataPage.JNumber 1)]];
              DataPage.liked := DataPage.JObject [("1", DataPage.JBool true)];
              DataPage.comments := DataPage.JObject [];
              DataPage.guestbook := [];
              DataPage.privateUnlocked := true;
              DataPage.sortMode := "az" |} in
  let blank := {| DataPage.slices :=
                    {| DataPage.songs := []; DataPage.liked := DataPage.JObject [];
                       DataPage.comments := DataPage.JObject [];
                       DataPage.guestbook := [];
                       DataPage.privateUnlocked := false;
                       DataPage.sortMode := "newest" |};
                  DataPage.status := "" |} in
  DataPage.onImportFile
    (DataPage.File (Some (DataExport.dataObject "2025-09-01T00:00:00.000Z" d)))
    blank
  = {| DataPage.slices := d; DataPage.status := DataPage.IMPORT_COMPLETE |}.
Proof. intros d blank. by apply ExportFacts.export_import_roundtrip. Defined.

Lemma import_keeps_containers_witness :
  let blank := {| DataPage.slices :=
                    {| DataPage.songs := []; DataPage.liked := DataPage.JObject [];
                       DataPage.comments := DataPage.JObject [];
                       DataPage.guestbook := [];
                       DataPage.privateUnlocked := false;
                       DataPage.sortMode := "newest" |};
                  DataPage.status := "" |} in
  let u := DataPage.File
             (Some (DataPage.JObject [("liked", DataPage.JString "yes");
                                      ("comments", DataPage.JArray [])])) in
  DataExport.isContainer
    (DataPage.liked (DataPage.slices (DataPage.onImportFile u blank))) = true
  ∧ DataExport.isContainer
      (DataPage.comments (DataPage.slices (DataPage.onImportFile u blank))) = true.
Proof. intros blank u. by apply ExportFacts.import_keeps_containers. Defined.

Lemma persist_reload_witness :
  LocalStorage.initialState BoolJson.parse
    (LocalStorage.writeBack BoolJson.stringify (Some ∅) "msw:priv" true true)
    "msw:priv" false
  = true.
Proof. by apply (StorageFacts.persist_reload BoolJson.parse BoolJson.stringify). Defined.

Lemma live_play_resolves_witness :
  let l0 := LiveIndex.mount defaults "#/music" in
  ∃ y, LiveIndex.song (LiveIndex.playBySong BE_GOOD l0) = Some y
       ∧ id y = id BE_GOOD.
Proof.
  intros l0.
  by destruct (LiveIndexFacts.live_play_resolves BE_GOOD l0) as (H & _);
    [in_list|done|].
Defined.

Lemma live_step_reenters_witness :
  let l1 := LiveIndex.dispatch (LiveIndex.SetQuery "good")
              (LiveIndex.dispatch (LiveIndex.PlaySong BE_GOOD)
                 (LiveIndex.mount defaults "#/music")) in
  LiveIndex.song l1 = None
  ∧ is_Some (LiveIndex.song (LiveIndex.step 1 l1)).
Proof.
  intros l1. split; [by vm_compute|].
  by destruct (LiveIndexFacts.live_step_reenters l1 1 1) as (_ & _ & H & _);
    [by vm_compute|done|by vm_compute|by left|].
Defined.

End MoreScenarios.
